(** * server-accepts-email: the verification orchestrator of [src/index.ts]

    A shallow embedding of [getMailServers], [testServer] and
    [serverAcceptsEmail], with the DNS resolver, the connection manager, the
    SMTP client and the timer taken as an interface of the outside world.
    Every call that leaves the orchestrator is recorded as an [Event], so
    that statements such as "no later host is contacted" are statements
    about the list of events a call produces. *)

From Equations Require Import Equations.
From Stdlib Require Import List String Ascii ZArith Lia Bool Permutation Sorted.
Import ListNotations.
Open Scope string_scope.

(** ** Values *)

(** A JavaScript [Error]: its message and the optional [code] property the
    DNS layer attaches ([err.code] in [handleResolveMxErrors]). *)
Record JsError : Type := mkError {
  message : string;
  code : option string
}.

(** [new Error(msg)]: no [code] property. *)
Definition newError (msg : string) : JsError :=
  {| message := msg; code := None |}.

(** What a [throw] carries.  [lastError] has type [Error | null] and is the
    operand of the final [throw], so [null] ([None]) is a possible thrown
    value as far as the types go. *)
Definition Thrown : Type := option JsError.

(** [dns.MxRecord]. *)
Record MxRecord : Type := mkMx {
  priority : Z;
  exchange : string
}.

(** Modelled from the spec: the result type of [client.test], declared in
    [./client], is not part of the sources at hand.  The code reads
    [result.kind === 'greylist'] with [result.timeout] (seconds), and
    [result.answer] otherwise; the spec calls the two cases [Greylisted] and
    [Definitive].  The timeout is taken to be a whole number of seconds. *)
Inductive TestResult : Type :=
| greylist (timeout : Z)
| answer (accepted : bool).

(** [TestServerOptions]. *)
Record TestServerOptions : Type := mkTestServerOptions {
  senderAddress : string;
  handleGraylisting : bool
}.

(** The [options] argument of [serverAcceptsEmail]: both fields optional. *)
Record Options : Type := mkOptions {
  opt_senderDomain : option string;
  opt_senderAddress : option string
}.

(** The default [options = {}]. *)
Definition noOptions : Options :=
  {| opt_senderDomain := None; opt_senderAddress := None |}.

(** ** The outside world *)

(** The collaborators the orchestrator calls.  [W] is the state of
    everything outside (DNS, remote mail hosts, the connection pool, the
    clock); [Client] is a probe session handed out by the manager. *)
Class Externals (W Client : Type) : Type := {
  (** [util.promisify(dns.resolveMx)]: rejects with an [Error] or resolves
      with records.  The argument is [None] for [undefined]. *)
  dns_resolveMx : option string -> W -> (JsError + list MxRecord) * W;
  (** [os.hostname()]. *)
  os_hostname : string;
  (** The manager obtaining a session for [(server, senderDomain)]. *)
  manager_acquire : string -> string -> W -> (JsError + Client) * W;
  (** The manager taking the session back. *)
  manager_release : Client -> W -> W;
  (** [client.test(email, { senderAddress })]. *)
  client_test : Client -> string -> string -> W -> (JsError + TestResult) * W;
  (** [pSleep(ms)]: the world after [ms] milliseconds. *)
  p_sleep : Z -> W -> W
}.

(** A call that crosses the boundary. *)
Inductive Event (Client : Type) : Type :=
| EvResolveMx (hostname : option string)
| EvAcquire (server senderDomain : string)
| EvRelease (client : Client)
| EvTest (client : Client) (email sender : string)
| EvSleep (ms : Z).
Arguments EvResolveMx {Client} hostname.
Arguments EvAcquire {Client} server senderDomain.
Arguments EvRelease {Client} client.
Arguments EvTest {Client} client email sender.
Arguments EvSleep {Client} ms.

(** ** The monad of asynchronous computations

    One request runs sequentially ([await] at every call), so a promise is
    a function of the world: it settles with a value or a thrown value,
    leaves a new world and has produced a list of events. *)
Record Outcome (W Client A : Type) : Type := mkOutcome {
  settled : Thrown + A;
  world : W;
  events : list (Event Client)
}.
Arguments mkOutcome {W Client A} settled world events.
Arguments settled {W Client A} o.
Arguments world {W Client A} o.
Arguments events {W Client A} o.

Definition M (W Client A : Type) : Type := W -> Outcome W Client A.

Section Monad.
Context {W Client : Type}.

Definition ret {A} (a : A) : M W Client A :=
  fun w => mkOutcome (inr a) w [].

Definition throw {A} (e : Thrown) : M W Client A :=
  fun w => mkOutcome (inl e) w [].

Definition bind {A B} (m : M W Client A) (k : A -> M W Client B) : M W Client B :=
  fun w =>
    let o := m w in
    match settled o with
    | inl e => mkOutcome (inl e) (world o) (events o)
    | inr a =>
        let o' := k a (world o) in
        mkOutcome (settled o') (world o') (events o ++ events o')
    end.

(** [try { return await m } catch (err) { h(err) }]. *)
Definition try_catch {A} (m : M W Client A) (h : Thrown -> M W Client A) : M W Client A :=
  fun w =>
    let o := m w in
    match settled o with
    | inr a => o
    | inl e =>
        let o' := h e (world o) in
        mkOutcome (settled o') (world o') (events o ++ events o')
    end.

(** [try { return await m } finally { f }] with an [f] that cannot fail:
    the outcome of [m] is forwarded after [f] has run. *)
Definition finally {A} (m : M W Client A) (f : M W Client unit) : M W Client A :=
  fun w =>
    let o := m w in
    let o' := f (world o) in
    mkOutcome (settled o) (world o') (events o ++ events o').

(** A call to a fallible collaborator, recorded as [ev]; the collaborator
    rejects with an [Error]. *)
Definition call {A} (ev : Event Client) (f : W -> (JsError + A) * W) : M W Client A :=
  fun w =>
    match f w with
    | (inl e, w') => mkOutcome (inl (Some e)) w' [ev]
    | (inr a, w') => mkOutcome (inr a) w' [ev]
    end.

(** [f(...).catch(h)] for a fallible collaborator [f]: a rejection goes to
    the handler, whose outcome replaces it. *)
Definition call_catch {A} (ev : Event Client) (f : W -> (JsError + A) * W)
    (h : JsError -> M W Client A) : M W Client A :=
  fun w =>
    match f w with
    | (inl e, w') =>
        let o := h e w' in
        mkOutcome (settled o) (world o) (ev :: events o)
    | (inr a, w') => mkOutcome (inr a) w' [ev]
    end.

(** A call to a collaborator that cannot fail, recorded as [ev]. *)
Definition call_ (ev : Event Client) (f : W -> W) : M W Client unit :=
  fun w => mkOutcome (inr tt) (f w) [ev].

End Monad.

Notation "x <- m ;; k" := (bind m (fun x => k))
  (at level 61, m at next level, right associativity).
Notation "m ;;; k" := (bind m (fun _ => k))
  (at level 61, right associativity).

(** ** Library functions *)

(** [s.split(sep)] for a one-character separator: the segments between the
    occurrences of [sep]; never empty. *)
Fixpoint split (sep : ascii) (s : string) : list string :=
  match s with
  | EmptyString => [EmptyString]
  | String c s' =>
      if Ascii.eqb c sep then EmptyString :: split sep s'
      else match split sep s' with
           | [] => [String c EmptyString]
           | seg :: segs => String c seg :: segs
           end
  end.

(** [a || b] on an optional string: [undefined] and the empty string are
    falsy. *)
Definition or_else (a : option string) (b : string) : string :=
  match a with
  | None => b
  | Some EmptyString => b
  | Some s => s
  end.

(** [Array.prototype.sort(compareFn)]: a stable sort (ECMAScript 2019); an
    element goes in front of the first one it does not compare greater
    than, so equal elements keep their order. *)
Fixpoint sort_insert {A} (compareFn : A -> A -> Z) (x : A) (l : list A) : list A :=
  match l with
  | [] => [x]
  | y :: l' =>
      if (compareFn x y <=? 0)%Z then x :: y :: l'
      else y :: sort_insert compareFn x l'
  end.

Definition sort {A} (compareFn : A -> A -> Z) (l : list A) : list A :=
  fold_right (sort_insert compareFn) [] l.

(** [pCatchIf(predicate, catchHandler)]: the handler runs on the errors the
    predicate accepts, the others are thrown again. *)
Definition pCatchIf {W Client A} (predicate : JsError -> bool)
    (catchHandler : JsError -> M W Client A) (err : JsError) : M W Client A :=
  if predicate err then catchHandler err else throw (Some err).

(** [pLimit(256)] as seen by one request: with a single call in flight the
    limit is not reached, the function runs at once and its outcome is
    forwarded. *)
Definition getMailServersLimit {W Client A B} (fn : A -> M W Client B) (x : A)
    : M W Client B :=
  fn x.

(** [err.code === c]. *)
Definition code_is (err : JsError) (c : string) : bool :=
  match code err with
  | Some c' => String.eqb c' c
  | None => false
  end.

(** ** The program *)

Section Program.
Context {W Client : Type} {ext : Externals W Client}.

(** index.ts, 28-31. *)
Definition handleResolveMxErrors : JsError -> M W Client (list MxRecord) :=
  pCatchIf
    (fun err => code_is err "ENOTFOUND" || code_is err "ENODATA")
    (fun _ => ret []).

(** index.ts, 33-41 (the [debug] lines write to a log only). *)
Definition getMailServers (hostname : option string) : M W Client (list string) :=
  mxRecords <- call_catch (EvResolveMx hostname) (dns_resolveMx hostname)
                 handleResolveMxErrors ;;
  ret (map (fun a => exchange a)
         (sort (fun lhs rhs => priority lhs - priority rhs)%Z mxRecords)).

(** index.ts, 48-63 (the [debug] line writes to a log only).  The test
    [bool_dec (handleGraylisting opts) false] is [!handleGraylisting]; the
    recursive call is made with [handleGraylisting: false] from a call in
    which the flag is [true], which is the measure that decreases. *)
Equations(noeqns noind) testServer (client : Client) (email : string) (opts : TestServerOptions)
  (w : W) : Outcome W Client bool by wf (Nat.b2n (handleGraylisting opts)) lt :=
testServer client email opts w :=
  (result <- call (EvTest client email (senderAddress opts))
               (client_test client email (senderAddress opts)) ;;
   match result with
   | greylist timeout =>
       if bool_dec (handleGraylisting opts) false
       then throw (Some (newError "Server applied greylisting"))
       else
         call_ (EvSleep (timeout * 1000)) (p_sleep (timeout * 1000)) ;;;
         (fun w' => testServer client email
            {| senderAddress := senderAddress opts; handleGraylisting := false |} w')
   | answer b => ret b
   end) w.
Next Obligation.
  destruct (handleGraylisting opts); simpl; [lia | congruence].
Qed.

(** Modelled from the spec: [Manager.withClient], defined in [./manager],
    is not part of the sources at hand.  The spec (section 6) gives it as
    [withSession(host, senderDomain, body)], where [body] receives a live
    session and its return value or error is forwarded after the session is
    released; a session that cannot be acquired is an error. *)
Definition withClient {A} (server senderDomain : string)
    (body : Client -> M W Client A) : M W Client A :=
  client <- call (EvAcquire server senderDomain)
              (manager_acquire server senderDomain) ;;
  finally (body client) (call_ (EvRelease client) (manager_release client)).

(** index.ts, 76-88: the [for] loop over [servers] with the [let lastError]
    it updates, and the [throw lastError] after it. *)
Fixpoint tryServers (attempt : string -> M W Client bool) (servers : list string)
    (lastError : Thrown) : M W Client bool :=
  match servers with
  | [] => throw lastError
  | server :: rest =>
      try_catch (attempt server) (fun err => tryServers attempt rest err)
  end.

(** index.ts, 65-89. *)
Definition serverAcceptsEmail (email : string) (options : Options) : M W Client bool :=
  let hostname := nth_error (split "@" email) 1 in
  servers <- getMailServersLimit getMailServers hostname ;;
  if (List.length servers =? 0)%nat then ret false
  else
    let senderDomain := or_else (opt_senderDomain options) os_hostname in
    let senderAddress :=
      or_else (opt_senderAddress options) ("test@" ++ senderDomain) in
    tryServers
      (fun server =>
         withClient server senderDomain (fun client =>
           testServer client email
             {| senderAddress := senderAddress; handleGraylisting := true |}))
      servers None.

End Program.

(** ** The HTTP endpoint *)

(** A value in a JSON response body. *)
Inductive Json : Type :=
| JString (s : string)
| JBool (b : bool).

(** What the handler sends: [res.status(code).json(body)], the fields of
    the body in the order of the object literal; [res.json(body)] alone
    sends status 200. *)
Record Response : Type := mkResponse {
  status : Z;
  json : list (string * Json)
}.

Section Endpoint.
Context {W Client : Type} {ext : Externals W Client}.

(** [error.message] in the [catch] block: reading a property of [null]
    throws a TypeError. *)
Definition message_of (error : Thrown) : M W Client string :=
  match error with
  | Some e => ret (message e)
  | None =>
      throw (Some (newError "Cannot read properties of null (reading 'message')"))
  end.

(** index.ts, 92-105: the handler of [GET /verify].  Its argument is
    [req.query.email] as the source types it, a string or [undefined];
    [!email] holds for [undefined] and for the empty string.  A handler
    that throws has sent no response. *)
Definition verifyHandler (email : option string) : M W Client Response :=
  match email with
  | None | Some EmptyString =>
      ret {| status := 400; json := [("error", JString "Email is required")] |}
  | Some email =>
      try_catch
        (isValid <- serverAcceptsEmail email noOptions ;;
         ret {| status := 200;
                json := [("email", JString email); ("isValid", JBool isValid)] |})
        (fun error =>
           details <- message_of error ;;
           ret {| status := 500;
                  json := [("error", JString "Error verifying email");
                           ("details", JString details)] |})
  end.

End Endpoint.

(** ** Vocabulary of the statements *)

(** The domain [serverAcceptsEmail] hands to the resolver:
    [email.split('@')[1]], [None] when there is no such element. *)
Definition hostnameOf (email : string) : option string :=
  nth_error (split "@" email) 1.

(** The hosts a run turned to, in order: one [withClient] call each. *)
Fixpoint contacted {Client} (evs : list (Event Client)) : list string :=
  match evs with
  | [] => []
  | EvAcquire server _ :: evs' => server :: contacted evs'
  | _ :: evs' => contacted evs'
  end.

(** The number of probes ([client.test] calls) in a run. *)
Fixpoint probes {Client} (evs : list (Event Client)) : nat :=
  match evs with
  | [] => 0
  | EvTest _ _ _ :: evs' => S (probes evs')
  | _ :: evs' => probes evs'
  end.

(** The number of timed waits in a run. *)
Fixpoint sleeps {Client} (evs : list (Event Client)) : nat :=
  match evs with
  | [] => 0
  | EvSleep _ :: evs' => S (sleeps evs')
  | _ :: evs' => sleeps evs'
  end.

(** The number of resolver lookups in a run. *)
Fixpoint lookups {Client} (evs : list (Event Client)) : nat :=
  match evs with
  | [] => 0
  | EvResolveMx _ :: evs' => S (lookups evs')
  | _ :: evs' => lookups evs'
  end.

(** The number of timed waits of a run made in a session with [host]:
    a wait belongs to the host of the latest [withClient] call, [current]
    being that host at the start of [evs]. *)
Fixpoint deferrals_from {Client} (host : string) (current : option string)
    (evs : list (Event Client)) : nat :=
  match evs with
  | [] => 0
  | EvAcquire server _ :: evs' => deferrals_from host (Some server) evs'
  | EvSleep _ :: evs' =>
      match current with
      | Some server => if String.eqb server host then 1 else 0
      | None => 0
      end + deferrals_from host current evs'
  | _ :: evs' => deferrals_from host current evs'
  end.

(** No character of [s] is [c]. *)
Fixpoint lacks (c : ascii) (s : string) : bool :=
  match s with
  | EmptyString => true
  | String c' s' => negb (Ascii.eqb c' c) && lacks c s'
  end.

(** The resolver error is one of the two "no such records" answers. *)
Definition no_mail_code (e : JsError) : Prop :=
  code e = Some "ENOTFOUND" \/ code e = Some "ENODATA".

(** The error [testServer] throws on a deferral it may not honour. *)
Definition greylistingError : JsError := newError "Server applied greylisting".

(** The comparator [getMailServers] sorts with (index.ts, 39). *)
Abbreviation byPriority :=
  (fun lhs rhs : MxRecord => (priority lhs - priority rhs)%Z).

(** Ascending by priority value. *)
Definition by_priority (a b : MxRecord) : Prop := (priority a <= priority b)%Z.

(** The records of priority [p], in the order they have in [l]. *)
Definition with_priority (p : Z) (l : list MxRecord) : list MxRecord :=
  filter (fun r => (priority r =? p)%Z) l.

(** [l'] is [l] sorted ascending by priority, records of equal priority
    keeping the order they have in [l]. *)
Definition stably_sorted (l l' : list MxRecord) : Prop :=
  Permutation l l' /\
  StronglySorted by_priority l' /\
  forall p, with_priority p l' = with_priority p l.

Section Vocabulary.
Context {W Client : Type} {ext : Externals W Client}.

(** The sender identity [serverAcceptsEmail] computes (index.ts, 73-74). *)
Definition effectiveSenderDomain (options : Options) : string :=
  or_else (opt_senderDomain options) os_hostname.

Definition effectiveSenderAddress (options : Options) : string :=
  or_else (opt_senderAddress options) ("test@" ++ effectiveSenderDomain options).

(** One host's attempt: the body of the [try] (index.ts, 79-81). *)
Definition attempt (email : string) (options : Options) (server : string)
    : M W Client bool :=
  withClient server (effectiveSenderDomain options) (fun client =>
    testServer client email
      {| senderAddress := effectiveSenderAddress options;
         handleGraylisting := true |}).

(** [AllFail att hosts w errs evs w']: from world [w], the attempts on
    [hosts], made one after the other, all throw; [errs] are the thrown
    values in order, [evs] the events and [w'] the world they leave. *)
Inductive AllFail (att : string -> M W Client bool)
  : list string -> W -> list Thrown -> list (Event Client) -> W -> Prop :=
| AllFail_nil w : AllFail att [] w [] [] w
| AllFail_cons server rest w e errs evs w' :
    settled (att server w) = inl e ->
    AllFail att rest (world (att server w)) errs evs w' ->
    AllFail att (server :: rest) w (e :: errs)
      (events (att server w) ++ evs) w'.

(** Every event of a run carries the given sender identity and recipient. *)
Definition carries (email senderDomain senderAddress : string)
    (ev : Event Client) : Prop :=
  match ev with
  | EvAcquire _ d => d = senderDomain
  | EvTest _ e s => e = email /\ s = senderAddress
  | _ => True
  end.

End Vocabulary.

(** ** A concrete world

    Four mail hosts and a handful of domains, for running the program. *)
Module Scenario.

Record World : Type := mkWorld {
  clock : Z;                      (* milliseconds slept so far *)
  probed : list string;           (* the hosts probed so far, latest first *)
  sessions : list string          (* the sessions currently held *)
}.

Definition start : World := {| clock := 0; probed := []; sessions := [] |}.

Definition times_probed (server : string) (w : World) : nat :=
  count_occ string_dec (probed w) server.

Definition resolveMx (hostname : option string) (w : World)
    : (JsError + list MxRecord) * World :=
  match hostname with
  | None =>
      (inl {| message := "The name argument must be of type string";
              code := Some "ERR_INVALID_ARG_TYPE" |}, w)
  | Some h =>
      if String.eqb h "example.com" then
        (inr [mkMx 20 "mx2.example.com"; mkMx 10 "mx1.example.com";
              mkMx 30 "mx3.example.com"; mkMx 10 "mx4.example.com"], w)
      else if String.eqb h "broken.example" then
        (inr [mkMx 20 "mx2.example.com"; mkMx 10 "mx1.example.com"], w)
      else if String.eqb h "plain.example" then
        (inr [mkMx 5 "mx3.example.com"; mkMx 5 "mx4.example.com"], w)
      else if String.eqb h "empty.example" then (inr [], w)
      else if String.eqb h "nodata.example" then
        (inl {| message := "queryMx ENODATA"; code := Some "ENODATA" |}, w)
      else if String.eqb h "timeout.example" then
        (inl {| message := "queryMx ETIMEOUT"; code := Some "ETIMEOUT" |}, w)
      else
        (inl {| message := "queryMx ENOTFOUND"; code := Some "ENOTFOUND" |}, w)
  end.

(** [mx1] refuses connections; the others hand out a session named after
    the host. *)
Definition acquire (server senderDomain : string) (w : World)
    : (JsError + string) * World :=
  if String.eqb server "mx1.example.com" then
    (inl {| message := "connect ECONNREFUSED"; code := Some "ECONNREFUSED" |}, w)
  else
    (inr server,
     {| clock := clock w; probed := probed w; sessions := server :: sessions w |}).

Definition release (client : string) (w : World) : World :=
  {| clock := clock w; probed := probed w;
     sessions := remove string_dec client (sessions w) |}.

(** [mx2] always greylists; [mx4] greylists the first probe and accepts
    afterwards; [mx3] rejects the recipient. *)
Definition test (client email sender : string) (w : World)
    : (JsError + TestResult) * World :=
  let w' := {| clock := clock w; probed := client :: probed w;
               sessions := sessions w |} in
  if String.eqb client "mx2.example.com" then (inr (greylist 5), w')
  else if String.eqb client "mx4.example.com" then
    match times_probed client w with
    | O => (inr (greylist 3), w')
    | S _ => (inr (answer true), w')
    end
  else (inr (answer false), w').

Definition sleep (ms : Z) (w : World) : World :=
  {| clock := (clock w + ms)%Z; probed := probed w; sessions := sessions w |}.

#[global] Instance externals : Externals World string := {
  dns_resolveMx := resolveMx;
  os_hostname := "probe.local";
  manager_acquire := acquire;
  manager_release := release;
  client_test := test;
  p_sleep := sleep
}.

End Scenario.

(** ** A world whose lookup names one host twice

    The hosts and the clock of [Scenario], with a resolver that answers
    every lookup with two records for [mx2], the host that always
    greylists. *)
Module Repeated.

Definition resolveMx (hostname : option string) (w : Scenario.World)
    : (JsError + list MxRecord) * Scenario.World :=
  (inr [mkMx 10 "mx2.example.com"; mkMx 20 "mx2.example.com"], w).

Definition externals : Externals Scenario.World string := {|
  dns_resolveMx := resolveMx;
  os_hostname := "probe.local";
  manager_acquire := Scenario.acquire;
  manager_release := Scenario.release;
  client_test := Scenario.test;
  p_sleep := Scenario.sleep
|}.

End Repeated.

(** * Properties *)

(** ** Sorting by priority *)

Section Sorting.


Lemma sort_insert_perm (x : MxRecord) (l : list MxRecord) :
  Permutation (x :: l) (sort_insert byPriority x l).
Proof.
  induction l as [| y l IH]; simpl; [reflexivity |].
  destruct (priority x - priority y <=? 0)%Z; [reflexivity |].
  rewrite perm_swap. now constructor.
Qed.

Lemma sort_perm (l : list MxRecord) : Permutation l (sort byPriority l).
Proof.
  induction l as [| x l IH]; simpl; [constructor |].
  rewrite <- sort_insert_perm. now constructor.
Qed.

Lemma sort_insert_sorted (x : MxRecord) (l : list MxRecord) :
  StronglySorted by_priority l ->
  StronglySorted by_priority (sort_insert byPriority x l).
Proof.
  induction 1 as [| y l Hl IH Hy]; simpl.
  - repeat constructor.
  - destruct (Z.leb_spec (priority x - priority y) 0) as [Hle | Hgt].
    + constructor; [now constructor |].
      constructor; [unfold by_priority; lia |].
      eapply Forall_impl; [| exact Hy].
      unfold by_priority; intros; lia.
    + constructor; [exact IH |].
      eapply Permutation_Forall; [apply sort_insert_perm |].
      constructor; [unfold by_priority; lia | exact Hy].
Qed.

Lemma sort_sorted (l : list MxRecord) : StronglySorted by_priority (sort byPriority l).
Proof.
  induction l as [| x l IH]; simpl; [constructor | now apply sort_insert_sorted].
Qed.

Lemma sort_insert_with_priority (p : Z) (x : MxRecord) (l : list MxRecord) :
  with_priority p (sort_insert byPriority x l) = with_priority p (x :: l).
Proof.
  induction l as [| y l IH]; simpl; [reflexivity |].
  destruct (Z.leb_spec (priority x - priority y) 0) as [Hle | Hgt]; [reflexivity |].
  simpl in *. rewrite IH.
  destruct (Z.eqb_spec (priority x) p), (Z.eqb_spec (priority y) p);
    try reflexivity; lia.
Qed.

Lemma sort_with_priority (p : Z) (l : list MxRecord) :
  with_priority p (sort byPriority l) = with_priority p l.
Proof.
  induction l as [| x l IH]; simpl; [reflexivity |].
  rewrite sort_insert_with_priority. simpl. now rewrite IH.
Qed.

Lemma sort_stably_sorted (l : list MxRecord) : stably_sorted l (sort byPriority l).
Proof.
  split; [apply sort_perm | split; [apply sort_sorted | intro; apply sort_with_priority]].
Qed.

Lemma with_priority_In (p : Z) (x : MxRecord) (l : list MxRecord) :
  In x (with_priority p l) <-> In x l /\ priority x = p.
Proof.
  unfold with_priority. rewrite filter_In, Z.eqb_eq. reflexivity.
Qed.

(** Two sorted lists with the same records of each priority, in the same
    order, are the same list. *)
Lemma sorted_by_classes (l1 l2 : list MxRecord) :
  StronglySorted by_priority l1 -> StronglySorted by_priority l2 ->
  (forall p, with_priority p l1 = with_priority p l2) ->
  l1 = l2.
Proof.
  intros H1; revert l2.
  induction H1 as [| x l1 Hs1 IH Hx]; intros l2 H2 Hc.
  - destruct l2 as [| y l2]; [reflexivity |].
    specialize (Hc (priority y)). simpl in Hc.
    rewrite Z.eqb_refl in Hc. discriminate.
  - destruct H2 as [| y l2 Hs2 Hy].
    + specialize (Hc (priority x)). simpl in Hc.
      rewrite Z.eqb_refl in Hc. discriminate.
    + assert (Hxy : priority x = priority y).
      { assert (In x (y :: l2)) as Hin1.
        { apply (with_priority_In (priority x)). rewrite <- Hc.
          apply with_priority_In. split; [now left | reflexivity]. }
        assert (In y (x :: l1)) as Hin2.
        { apply (with_priority_In (priority y)). rewrite Hc.
          apply with_priority_In. split; [now left | reflexivity]. }
        rewrite Forall_forall in Hx, Hy. unfold by_priority in *.
        destruct Hin1 as [-> | Hin1]; [reflexivity |].
        destruct Hin2 as [-> | Hin2]; [reflexivity |].
        specialize (Hx _ Hin2). specialize (Hy _ Hin1). lia. }
      pose proof (Hc (priority x)) as Hhead. simpl in Hhead.
      rewrite <- Hxy, Z.eqb_refl in Hhead.
      injection Hhead as -> Htail.
      f_equal. apply IH; [exact Hs2 |].
      intro p. specialize (Hc p). simpl in Hc.
      destruct (Z.eqb_spec (priority y) p) as [Heq | Hne]; [| exact Hc].
      now injection Hc.
Qed.

Lemma stably_sorted_unique (l l1 l2 : list MxRecord) :
  stably_sorted l l1 -> stably_sorted l l2 -> l1 = l2.
Proof.
  intros (_ & Hs1 & Hc1) (_ & Hs2 & Hc2).
  apply sorted_by_classes; trivial.
  intro p. now rewrite Hc1, Hc2.
Qed.

End Sorting.

(** ** The resolver *)

Section Resolver.
Context {W Client : Type} {ext : Externals W Client}.


Lemma code_is_spec (e : JsError) (c : string) :
  code_is e c = true <-> code e = Some c.
Proof.
  unfold code_is. destruct (code e) as [c' |].
  - rewrite String.eqb_eq. split; congruence.
  - split; discriminate.
Qed.

Lemma no_mail_code_spec (e : JsError) :
  code_is e "ENOTFOUND" || code_is e "ENODATA" = true <-> no_mail_code e.
Proof.
  unfold no_mail_code. now rewrite orb_true_iff, !code_is_spec.
Qed.

Lemma getMailServers_resolved hostname (w w' : W) records :
  dns_resolveMx hostname w = (inr records, w') ->
  getMailServers (Client := Client) hostname w =
  mkOutcome (inr (map exchange (sort byPriority records))) w' [EvResolveMx hostname].
Proof.
  intros H. unfold getMailServers, bind, call_catch. now rewrite H.
Qed.

Lemma getMailServers_no_mail hostname (w w' : W) e :
  dns_resolveMx hostname w = (inl e, w') -> no_mail_code e ->
  getMailServers (Client := Client) hostname w =
  mkOutcome (inr []) w' [EvResolveMx hostname].
Proof.
  intros H Hc. apply no_mail_code_spec in Hc.
  unfold getMailServers, bind, call_catch, handleResolveMxErrors, pCatchIf.
  now rewrite H, Hc.
Qed.

Lemma getMailServers_failure hostname (w w' : W) e :
  dns_resolveMx hostname w = (inl e, w') -> ~ no_mail_code e ->
  getMailServers (Client := Client) hostname w =
  mkOutcome (inl (Some e)) w' [EvResolveMx hostname].
Proof.
  intros H Hc. rewrite <- no_mail_code_spec in Hc. apply not_true_is_false in Hc.
  unfold getMailServers, bind, call_catch, handleResolveMxErrors, pCatchIf.
  now rewrite H, Hc.
Qed.

(** The first thing a call does is the lookup, whatever the address. *)
Lemma getMailServers_events hostname (w : W) :
  events (getMailServers (Client := Client) hostname w) = [EvResolveMx hostname].
Proof.
  destruct (dns_resolveMx hostname w) as [[e | records] w'] eqn:H.
  - unfold getMailServers, bind, call_catch, handleResolveMxErrors, pCatchIf.
    rewrite H. now destruct (_ || _).
  - now rewrite (getMailServers_resolved _ _ _ _ H).
Qed.

(** [serverAcceptsEmail] in terms of the lookup, the loop and [attempt]. *)
Lemma serverAcceptsEmail_unfold (email : string) (options : Options) (w : W) :
  serverAcceptsEmail email options w =
  (servers <- getMailServers (hostnameOf email) ;;
   match servers with
   | [] => ret false
   | _ :: _ => tryServers (attempt email options) servers None
   end) w.
Proof.
  unfold serverAcceptsEmail, getMailServersLimit, hostnameOf, bind.
  destruct (settled _) as [e | [| server rest]]; reflexivity.
Qed.

End Resolver.

(** ** Splitting the address *)

Lemma split_lacks (c : ascii) (s : string) :
  lacks c s = true -> split c s = [s].
Proof.
  induction s as [| x s IH]; simpl; [reflexivity |].
  rewrite andb_true_iff, negb_true_iff. intros [-> Hs].
  now rewrite (IH Hs).
Qed.

Lemma split_at_first (c : ascii) (a rest : string) :
  lacks c a = true -> split c (a ++ String c rest) = a :: split c rest.
Proof.
  induction a as [| x a IH]; simpl.
  - intros _. now rewrite Ascii.eqb_refl.
  - rewrite andb_true_iff, negb_true_iff. intros [-> Ha].
    now rewrite (IH Ha).
Qed.

Section Lookup.
Context {W Client : Type} {ext : Externals W Client}.


(** C5: when the lookup for the address's domain yields no exchanger (an
    empty answer, or the resolver errors ENOTFOUND or ENODATA),
    [serverAcceptsEmail] resolves to [false], throws nothing, and the
    lookup is the only call it makes: no host is contacted. *)
Theorem no_exchangers_false (email : string) (options : Options) (w w' : W)
    (answer : JsError + list MxRecord) :
  dns_resolveMx (hostnameOf email) w = (answer, w') ->
  answer = inr [] \/ (exists e, answer = inl e /\ no_mail_code e) ->
  serverAcceptsEmail (Client := Client) email options w =
    mkOutcome (inr false) w' [EvResolveMx (hostnameOf email)] /\
  contacted (events (serverAcceptsEmail (Client := Client) email options w)) = [].
Proof.
  intros H Hanswer.
  assert (Hget : getMailServers (Client := Client) (hostnameOf email) w =
                 mkOutcome (inr []) w' [EvResolveMx (hostnameOf email)]).
  { destruct Hanswer as [-> | (e & -> & Hc)].
    - now rewrite (getMailServers_resolved _ _ _ _ H).
    - now apply getMailServers_no_mail with e. }
  assert (Hrun : serverAcceptsEmail (Client := Client) email options w =
                 mkOutcome (inr false) w' [EvResolveMx (hostnameOf email)]).
  { rewrite serverAcceptsEmail_unfold. unfold bind. now rewrite Hget. }
  split; [exact Hrun | now rewrite Hrun].
Qed.

(** C6: the handler turns exactly the errors with code ENOTFOUND or
    ENODATA into an empty record list and throws every other error again;
    so a lookup failing with such a code makes [getMailServers] resolve to
    the empty list, and a lookup failing with any other error makes
    [getMailServers], and [serverAcceptsEmail] with it, reject with that
    very error before any host is contacted. *)
Theorem resolver_errors (e : JsError) :
  (forall w : W,
     handleResolveMxErrors (Client := Client) e w = mkOutcome (inr []) w [] <->
     no_mail_code e) /\
  (forall w : W,
     handleResolveMxErrors (Client := Client) e w = mkOutcome (inl (Some e)) w [] <->
     ~ no_mail_code e) /\
  (forall hostname (w w' : W),
     dns_resolveMx hostname w = (inl e, w') ->
     (no_mail_code e ->
      getMailServers (Client := Client) hostname w =
        mkOutcome (inr []) w' [EvResolveMx hostname]) /\
     (~ no_mail_code e ->
      getMailServers (Client := Client) hostname w =
        mkOutcome (inl (Some e)) w' [EvResolveMx hostname] /\
      forall email options,
        hostnameOf email = hostname ->
        serverAcceptsEmail (Client := Client) email options w =
          mkOutcome (inl (Some e)) w' [EvResolveMx hostname])).
Proof.
  assert (Hhandler : forall w : W,
    handleResolveMxErrors (Client := Client) e w =
    if code_is e "ENOTFOUND" || code_is e "ENODATA"
    then mkOutcome (inr []) w [] else mkOutcome (inl (Some e)) w []).
  { intro w. unfold handleResolveMxErrors, pCatchIf. now destruct (_ || _). }
  split; [| split].
  - intro w. rewrite Hhandler, <- no_mail_code_spec.
    destruct (_ || _); split; congruence.
  - intro w. rewrite Hhandler, <- no_mail_code_spec.
    destruct (_ || _); split; congruence.
  - intros hostname w w' H. split.
    + now apply getMailServers_no_mail.
    + intro Hc. pose proof (getMailServers_failure _ _ _ _ H Hc) as Hget.
      split; [exact Hget |].
      intros email options <-.
      rewrite serverAcceptsEmail_unfold. unfold bind. now rewrite Hget.
Qed.

(** C7: for the records the lookup returns, [getMailServers] resolves to
    the [exchange] names, and nothing else, of the one list that is a
    rearrangement of the records, ascending by priority, with the records
    of each priority in the order the lookup gave them. *)
Theorem getMailServers_stable_order hostname (w w' : W) (records : list MxRecord) :
  dns_resolveMx hostname w = (inr records, w') ->
  exists sorted : list MxRecord,
    stably_sorted records sorted /\
    (forall l, stably_sorted records l -> l = sorted) /\
    settled (getMailServers (Client := Client) hostname w) = inr (map exchange sorted).
Proof.
  intro H. exists (sort byPriority records).
  split; [apply sort_stably_sorted | split].
  - intros l Hl. apply (stably_sorted_unique records); [exact Hl |].
    apply sort_stably_sorted.
  - now rewrite (getMailServers_resolved _ _ _ _ H).
Qed.

(** C10: the domain is the second segment of the address split at every
    '@': the text between the first and the second '@' when there are
    several, and [undefined] when there is none.  Whatever the address,
    the first call made is the lookup of that value; with no '@' the
    outcome is the resolver's answer for [undefined], so a resolver error
    is thrown as it is and nothing is decided on the address's shape. *)
Theorem domain_is_second_segment :
  (forall a b c : string,
     lacks "@" a = true -> lacks "@" b = true ->
     hostnameOf (a ++ "@" ++ b ++ "@" ++ c) = Some b) /\
  (forall a b : string,
     lacks "@" a = true -> lacks "@" b = true ->
     hostnameOf (a ++ "@" ++ b) = Some b) /\
  (forall email : string, lacks "@" email = true -> hostnameOf email = None) /\
  (forall email options (w : W),
     exists evs,
       events (serverAcceptsEmail (Client := Client) email options w) =
       EvResolveMx (hostnameOf email) :: evs) /\
  (forall email options (w w' : W) e,
     lacks "@" email = true ->
     dns_resolveMx None w = (inl e, w') -> ~ no_mail_code e ->
     serverAcceptsEmail (Client := Client) email options w =
       mkOutcome (inl (Some e)) w' [EvResolveMx None]).
Proof.
  assert (Hnone : forall email, lacks "@" email = true -> hostnameOf email = None).
  { intros email H. unfold hostnameOf. now rewrite (split_lacks _ _ H). }
  repeat split.
  - intros a b c Ha Hb. unfold hostnameOf. simpl.
    rewrite (split_at_first _ _ _ Ha), (split_at_first _ _ _ Hb). reflexivity.
  - intros a b Ha Hb. unfold hostnameOf. simpl.
    rewrite (split_at_first _ _ _ Ha), (split_lacks _ _ Hb). reflexivity.
  - exact Hnone.
  - intros email options w. rewrite serverAcceptsEmail_unfold. unfold bind.
    pose proof (getMailServers_events (Client := Client) (hostnameOf email) w) as Hev.
    destruct (settled _) as [err | servers]; simpl; rewrite Hev; simpl; eauto.
  - intros email options w w' e Hlacks H Hc.
    rewrite serverAcceptsEmail_unfold, (Hnone _ Hlacks). unfold bind.
    now rewrite (getMailServers_failure _ _ _ _ H Hc).
Qed.

End Lookup.

(** ** One host's attempt *)

Section Attempt.
Context {W Client : Type} {ext : Externals W Client}.

(** [testServer] satisfies the recursive equation of the source. *)
Lemma testServer_eq client email opts (w : W) :
  testServer client email opts w =
  (result <- call (EvTest client email (senderAddress opts))
               (client_test client email (senderAddress opts)) ;;
   match result with
   | greylist timeout =>
       if bool_dec (handleGraylisting opts) false
       then throw (Some (newError "Server applied greylisting"))
       else
         call_ (EvSleep (timeout * 1000)) (p_sleep (timeout * 1000)) ;;;
         testServer client email
           {| senderAddress := senderAddress opts; handleGraylisting := false |}
   | answer b => ret b
   end) w.
Proof.
  destruct opts as [sa [|]]; reflexivity.
Qed.

Lemma testServer_rejected client email opts (w w1 : W) e :
  client_test client email (senderAddress opts) w = (inl e, w1) ->
  testServer client email opts w =
  mkOutcome (inl (Some e)) w1 [EvTest client email (senderAddress opts)].
Proof.
  intro H. rewrite testServer_eq. unfold bind, call. now rewrite H.
Qed.

Lemma testServer_answer client email opts (w w1 : W) b :
  client_test client email (senderAddress opts) w = (inr (answer b), w1) ->
  testServer client email opts w =
  mkOutcome (inr b) w1 [EvTest client email (senderAddress opts)].
Proof.
  intro H. rewrite testServer_eq. unfold bind, call. now rewrite H.
Qed.

Lemma testServer_greylist_disabled client email opts (w w1 : W) t :
  handleGraylisting opts = false ->
  client_test client email (senderAddress opts) w = (inr (greylist t), w1) ->
  testServer client email opts w =
  mkOutcome (inl (Some greylistingError)) w1 [EvTest client email (senderAddress opts)].
Proof.
  intros Hflag H. rewrite testServer_eq. unfold bind, call.
  rewrite H, Hflag. reflexivity.
Qed.

Lemma testServer_greylist_enabled client email opts (w w1 : W) t :
  handleGraylisting opts = true ->
  client_test client email (senderAddress opts) w = (inr (greylist t), w1) ->
  testServer client email opts w =
  let again :=
    testServer client email
      {| senderAddress := senderAddress opts; handleGraylisting := false |}
      (p_sleep (t * 1000) w1) in
  mkOutcome (settled again) (world again)
    (EvTest client email (senderAddress opts) :: EvSleep (t * 1000) :: events again).
Proof.
  intros Hflag H. rewrite testServer_eq. unfold bind, call, call_.
  rewrite H, Hflag. simpl.
  destruct (settled _); reflexivity.
Qed.

(** With greylist handling off, [testServer] probes once and returns. *)
Lemma testServer_disabled_events client email opts (w : W) :
  handleGraylisting opts = false ->
  events (testServer client email opts w) =
  [EvTest client email (senderAddress opts)].
Proof.
  intro Hflag.
  destruct (client_test client email (senderAddress opts) w)
    as [[e | [t | b]] w1] eqn:H.
  - now rewrite (testServer_rejected _ _ _ _ _ _ H).
  - now rewrite (testServer_greylist_disabled _ _ _ _ _ _ Hflag H).
  - now rewrite (testServer_answer _ _ _ _ _ _ H).
Qed.

(** The events of a [testServer] call: one probe, or a probe, a wait and a
    second probe, all on the session and with the addresses it was given. *)
Lemma testServer_events client email opts (w : W) :
  let probe := EvTest client email (senderAddress opts) in
  events (testServer client email opts w) = [probe] \/
  exists t, events (testServer client email opts w) =
            [probe; EvSleep (t * 1000); probe].
Proof.
  intro probe.
  destruct (handleGraylisting opts) eqn:Hflag;
    [| left; now apply testServer_disabled_events].
  destruct (client_test client email (senderAddress opts) w)
    as [[e | [t | b]] w1] eqn:H.
  - left. now rewrite (testServer_rejected _ _ _ _ _ _ H).
  - right. exists t.
    rewrite (testServer_greylist_enabled _ _ _ _ _ _ Hflag H). simpl.
    now rewrite testServer_disabled_events.
  - left. now rewrite (testServer_answer _ _ _ _ _ _ H).
Qed.

Lemma withClient_refused {A} server senderDomain (body : Client -> M W Client A)
    (w w' : W) e :
  manager_acquire server senderDomain w = (inl e, w') ->
  withClient server senderDomain body w =
  mkOutcome (inl (Some e)) w' [EvAcquire server senderDomain].
Proof.
  intro H. unfold withClient, bind, call. now rewrite H.
Qed.

Lemma withClient_acquired {A} server senderDomain (body : Client -> M W Client A)
    (w w' : W) client :
  manager_acquire server senderDomain w = (inr client, w') ->
  withClient server senderDomain body w =
  mkOutcome (settled (body client w'))
    (manager_release client (world (body client w')))
    (EvAcquire server senderDomain :: events (body client w') ++ [EvRelease client]).
Proof.
  intro H. unfold withClient, bind, call, finally, call_. now rewrite H.
Qed.

Lemma tryServers_verdict (att : string -> M W Client bool) server rest lastError
    (w : W) b :
  settled (att server w) = inr b ->
  tryServers att (server :: rest) lastError w = att server w.
Proof.
  intro H. simpl. unfold try_catch. now rewrite H.
Qed.

Lemma tryServers_failure (att : string -> M W Client bool) server rest lastError
    (w : W) e :
  settled (att server w) = inl e ->
  tryServers att (server :: rest) lastError w =
  let next := tryServers att rest e (world (att server w)) in
  mkOutcome (settled next) (world next) (events (att server w) ++ events next).
Proof.
  intro H. simpl. unfold try_catch. now rewrite H.
Qed.

(** C2: when the prober answers with a deferral of [t] seconds and greylist
    handling is on, [testServer] sleeps [t * 1000] milliseconds and settles
    as [testServer] on the same client, with the same addresses and
    handling off, settles in the world after the sleep; that second call
    makes one probe and does not sleep. *)
Theorem greylisted_retry_once client email opts (w w1 : W) (t : Z) :
  handleGraylisting opts = true ->
  client_test client email (senderAddress opts) w = (inr (greylist t), w1) ->
  let again :=
    testServer client email
      {| senderAddress := senderAddress opts; handleGraylisting := false |}
      (p_sleep (t * 1000) w1) in
  settled (testServer client email opts w) = settled again /\
  world (testServer client email opts w) = world again /\
  events (testServer client email opts w) =
    EvTest client email (senderAddress opts) :: EvSleep (t * 1000) :: events again /\
  events again = [EvTest client email (senderAddress opts)].
Proof.
  intros Hflag H again.
  rewrite (testServer_greylist_enabled _ _ _ _ _ _ Hflag H).
  repeat split. apply (testServer_disabled_events client email
    {| senderAddress := senderAddress opts; handleGraylisting := false |}).
  reflexivity.
Qed.

(** C3, as the code has it: at most one deferral is honoured per attempt,
    that is per entry of the host list.  A deferral answered while greylist
    handling is off makes [testServer] throw "Server applied greylisting"
    without sleeping.  A [testServer] call therefore probes at most twice
    (one probe per invocation, so the recursion is at most two deep) and
    sleeps at most once, whatever the prober answers; it is a total
    function.  An entry whose host defers twice fails its attempt with that
    error, and the loop goes on to the next entry with it as the last
    error. *)
Theorem one_deferral_per_host :
  (forall client email opts (w w1 : W) t,
     handleGraylisting opts = false ->
     client_test client email (senderAddress opts) w = (inr (greylist t), w1) ->
     testServer client email opts w =
     mkOutcome (inl (Some greylistingError)) w1
       [EvTest client email (senderAddress opts)]) /\
  (forall client email opts (w : W),
     probes (events (testServer client email opts w)) <= 2 /\
     sleeps (events (testServer client email opts w)) <= 1 /\
     (handleGraylisting opts = false ->
      probes (events (testServer client email opts w)) = 1 /\
      sleeps (events (testServer client email opts w)) = 0)) /\
  (forall email options server client (w0 w w1 w2 : W) t1 t2,
     manager_acquire server (effectiveSenderDomain options) w0 = (inr client, w) ->
     client_test client email (effectiveSenderAddress options) w =
       (inr (greylist t1), w1) ->
     client_test client email (effectiveSenderAddress options)
       (p_sleep (t1 * 1000) w1) = (inr (greylist t2), w2) ->
     let o := attempt email options server w0 in
     settled o = inl (Some greylistingError) /\
     sleeps (events o) = 1 /\
     forall rest lastError,
       let next :=
         tryServers (attempt email options) rest (Some greylistingError) (world o) in
       tryServers (attempt email options) (server :: rest) lastError w0 =
       mkOutcome (settled next) (world next) (events o ++ events next)).
Proof.
  split; [| split].
  - intros. now apply testServer_greylist_disabled with t.
  - intros client email opts w.
    split; [| split].
    + destruct (testServer_events client email opts w) as [-> | (t & ->)];
        simpl; lia.
    + destruct (testServer_events client email opts w) as [-> | (t & ->)];
        simpl; lia.
    + intro Hflag. rewrite (testServer_disabled_events _ _ _ _ Hflag).
      split; reflexivity.
  - intros email options server client w0 w w1 w2 t1 t2 Hacq H1 H2 o.
    assert (Ho : settled o = inl (Some greylistingError) /\ sleeps (events o) = 1).
    { unfold o, attempt. rewrite (withClient_acquired _ _ _ _ _ _ Hacq).
      rewrite (testServer_greylist_enabled client email
        {| senderAddress := effectiveSenderAddress options;
           handleGraylisting := true |} w w1 t1 eq_refl H1). simpl.
      rewrite (testServer_greylist_disabled client email
        {| senderAddress := effectiveSenderAddress options;
           handleGraylisting := false |} _ w2 t2 eq_refl H2). simpl.
      split; reflexivity. }
    destruct Ho as [Hs Hn]. repeat split; trivial.
    intros rest lastError next.
    now rewrite (tryServers_failure _ _ _ _ _ _ Hs).
Qed.

End Attempt.

(** ** The loop over the hosts *)

Section Fallback.
Context {W Client : Type} {ext : Externals W Client}.
Local Open Scope list_scope.

Lemma contacted_app (evs evs' : list (Event Client)) :
  contacted (evs ++ evs') = contacted evs ++ contacted evs'.
Proof.
  induction evs as [| [] evs IH]; simpl; congruence.
Qed.

Lemma testServer_contacted client email opts (w : W) :
  contacted (events (testServer client email opts w)) = [].
Proof.
  destruct (testServer_events client email opts w) as [-> | (t & ->)]; reflexivity.
Qed.

(** An attempt turns to its host once, and to no other. *)
Lemma attempt_contacted email options server (w : W) :
  contacted (events (attempt email options server w)) = [server].
Proof.
  unfold attempt.
  destruct (manager_acquire server (effectiveSenderDomain options) w)
    as [[e | client] w'] eqn:H.
  - now rewrite (withClient_refused _ _ _ _ _ _ H).
  - rewrite (withClient_acquired _ _ _ _ _ _ H). simpl.
    now rewrite contacted_app, testServer_contacted.
Qed.

Lemma AllFail_contacted email options hosts (w w' : W) errs evs :
  AllFail (attempt email options) hosts w errs evs w' -> contacted evs = hosts.
Proof.
  induction 1 as [| server rest w e errs evs w' Hfail Hrest IH]; [reflexivity |].
  now rewrite contacted_app, attempt_contacted, IH.
Qed.

Lemma AllFail_app (att : string -> M W Client bool) hosts server
    (w w1 : W) errs evs e :
  AllFail att hosts w errs evs w1 ->
  settled (att server w1) = inl e ->
  AllFail att (hosts ++ [server]) w (errs ++ [e])
    (evs ++ events (att server w1)) (world (att server w1)).
Proof.
  induction 1 as [| s rest w e0 errs evs w' Hfail Hrest IH]; intro Hlast; simpl.
  - rewrite <- (app_nil_r (events _)). constructor; [exact Hlast | constructor].
  - rewrite <- app_assoc. constructor; [exact Hfail | now apply IH].
Qed.

Lemma last_cons_default {A} (x d : A) (l : list A) : last (x :: l) d = last l x.
Proof.
  revert x d. induction l as [| y l IH]; intros x d; [reflexivity |].
  change (last (x :: y :: l) d) with (last (y :: l) d).
  now rewrite !IH.
Qed.

(** After a run of failures the loop is where it would be had it started
    on the remaining hosts with the latest thrown value as [lastError]. *)
Lemma tryServers_after_failures (att : string -> M W Client bool) hosts
    (w w1 : W) errs evs :
  AllFail att hosts w errs evs w1 ->
  forall rest lastError,
    tryServers att (hosts ++ rest) lastError w =
    let next := tryServers att rest (last errs lastError) w1 in
    mkOutcome (settled next) (world next) (evs ++ events next).
Proof.
  induction 1 as [| server hosts w e errs evs w' Hfail Hrest IH];
    intros rest lastError.
  - simpl. now destruct (tryServers att rest lastError w).
  - rewrite <- app_comm_cons, (tryServers_failure _ _ _ _ _ _ Hfail), IH.
    rewrite last_cons_default. simpl. now rewrite app_assoc.
Qed.

(** The loop turns to the hosts in the order of the list, skipping none,
    and stops somewhere along it. *)
Lemma tryServers_contacted_prefix email options servers lastError (w : W) :
  exists rest,
    servers =
    contacted (events (tryServers (attempt email options) servers lastError w))
    ++ rest.
Proof.
  revert lastError w.
  induction servers as [| server servers IH]; intros lastError w.
  - now exists [].
  - destruct (settled (attempt email options server w)) as [e | b] eqn:H.
    + rewrite (tryServers_failure _ _ _ _ _ _ H). simpl.
      rewrite contacted_app, attempt_contacted.
      destruct (IH e (world (attempt email options server w))) as [rest Hrest].
      exists rest. simpl. now rewrite <- Hrest.
    + rewrite (tryServers_verdict _ _ _ _ _ _ H), attempt_contacted.
      now exists servers.
Qed.

Lemma tryServers_contacted_head email options server servers lastError (w : W) :
  exists more,
    contacted
      (events (tryServers (attempt email options) (server :: servers) lastError w))
    = server :: more.
Proof.
  destruct (settled (attempt email options server w)) as [e | b] eqn:H.
  - rewrite (tryServers_failure _ _ _ _ _ _ H). simpl.
    rewrite contacted_app, attempt_contacted. simpl. eauto.
  - rewrite (tryServers_verdict _ _ _ _ _ _ H), attempt_contacted. eauto.
Qed.

Lemma serverAcceptsEmail_resolved email options (w : W) server servers :
  settled (getMailServers (Client := Client) (hostnameOf email) w)
    = inr (server :: servers) ->
  serverAcceptsEmail email options w =
  let loop :=
    tryServers (attempt email options) (server :: servers) None
      (world (getMailServers (Client := Client) (hostnameOf email) w)) in
  mkOutcome (settled loop) (world loop)
    (EvResolveMx (hostnameOf email) :: events loop).
Proof.
  intro H. rewrite serverAcceptsEmail_unfold. unfold bind.
  now rewrite H, getMailServers_events.
Qed.

End Fallback.

(** ** The orchestrator *)

Section Orchestrator.
Context {W Client : Type} {ext : Externals W Client}.
Local Open Scope list_scope.

(** C1: let the lookup give a host list in which the hosts of [pre], tried
    one after the other, all fail, and [server] comes next.  The hosts
    contacted are an initial part of the list, in its order.  If the
    attempt on [server] yields a verdict, [true] or [false], that verdict
    is what [serverAcceptsEmail] returns and [server] is the last host
    contacted.  A host after [server] is contacted only if the attempt on
    [server] threw, and when it threw the host after it, if any, is the
    next one contacted. *)
Theorem first_verdict_wins email options (w w1 : W) servers pre server post errs evs :
  let lookup := getMailServers (Client := Client) (hostnameOf email) w in
  let run := serverAcceptsEmail email options w in
  let this := attempt email options server w1 in
  settled lookup = inr servers ->
  servers = pre ++ server :: post ->
  AllFail (attempt email options) pre (world lookup) errs evs w1 ->
  (exists rest, servers = contacted (events run) ++ rest) /\
  (forall b,
     settled this = inr b ->
     settled run = inr b /\ world run = world this /\
     events run = EvResolveMx (hostnameOf email) :: evs ++ events this /\
     contacted (events run) = pre ++ [server]) /\
  (List.length (pre ++ [server]) < List.length (contacted (events run)) ->
   exists e, settled this = inl e) /\
  (forall e next post',
     settled this = inl e -> post = next :: post' ->
     exists more, contacted (events run) = pre ++ server :: next :: more).
Proof.
  intros lookup run this Hlookup -> Hpre.
  remember (tryServers (attempt email options) (server :: post)
              (last errs None) w1) as loop eqn:Hloop.
  assert (Hrun : run =
    mkOutcome (settled loop) (world loop)
      (EvResolveMx (hostnameOf email) :: evs ++ events loop)).
  { unfold run. destruct pre as [| first pre'].
    - inversion Hpre; subst. simpl in Hlookup.
      now rewrite (serverAcceptsEmail_resolved _ _ _ _ _ Hlookup).
    - simpl in Hlookup. rewrite (serverAcceptsEmail_resolved _ _ _ _ _ Hlookup).
      change (first :: pre' ++ server :: post)
        with ((first :: pre') ++ server :: post).
      rewrite (tryServers_after_failures _ _ _ _ _ _ Hpre). now subst loop. }
  pose proof (AllFail_contacted _ _ _ _ _ _ _ Hpre) as Hcontacted.
  assert (Hevents : contacted (events run) = pre ++ contacted (events loop)).
  { rewrite Hrun. simpl. now rewrite contacted_app, Hcontacted. }
  assert (Hverdict : forall b, settled this = inr b ->
    settled run = inr b /\ world run = world this /\
    events run = EvResolveMx (hostnameOf email) :: evs ++ events this /\
    contacted (events run) = pre ++ [server]).
  { intros b Hb. rewrite Hevents, Hrun, Hloop.
    rewrite (tryServers_verdict _ _ _ _ _ _ Hb), attempt_contacted.
    repeat split; trivial. }
  split; [| split; [exact Hverdict | split]].
  - rewrite Hevents, Hloop.
    destruct (tryServers_contacted_prefix email options (server :: post)
                (last errs None) w1) as [rest Hrest].
    exists rest. rewrite <- app_assoc. f_equal. exact Hrest.
  - intro Hlen. destruct (settled this) as [e | b] eqn:Hthis; [eauto |].
    destruct (Hverdict b eq_refl) as (_ & _ & _ & Hc).
    rewrite Hc in Hlen. lia.
  - intros e next post' He ->.
    rewrite Hevents, Hloop, (tryServers_failure _ _ _ _ _ _ He).
    cbv zeta. cbn [events]. rewrite contacted_app, attempt_contacted.
    destruct (tryServers_contacted_head email options next post' e
                (world (attempt email options server w1))) as [more ->].
    now exists more.
Qed.

(** C4: let the lookup give the hosts [pre] followed by [server], and let
    every attempt fail, the one on [server] with [e].  Then
    [serverAcceptsEmail] throws [e] itself, having contacted every host in
    order.  Before each next host, [lastError] holds the value the latest
    attempt threw: after any initial run of failures the loop continues as
    if started on the remaining hosts with that value. *)
Theorem all_fail_last_error email options (w w1 : W) pre server errs evs e :
  let lookup := getMailServers (Client := Client) (hostnameOf email) w in
  let run := serverAcceptsEmail email options w in
  settled lookup = inr (pre ++ [server]) ->
  AllFail (attempt email options) pre (world lookup) errs evs w1 ->
  settled (attempt email options server w1) = inl e ->
  settled run = inl e /\
  world run = world (attempt email options server w1) /\
  contacted (events run) = pre ++ [server] /\
  (forall tried todo errs' evs' w',
     pre ++ [server] = tried ++ todo ->
     AllFail (attempt email options) tried (world lookup) errs' evs' w' ->
     let next := tryServers (attempt email options) todo (last errs' None) w' in
     run = mkOutcome (settled next) (world next)
             (EvResolveMx (hostnameOf email) :: evs' ++ events next)).
Proof.
  intros lookup run Hlookup Hpre He.
  assert (Hloop : forall tried todo errs' evs' w',
     pre ++ [server] = tried ++ todo ->
     AllFail (attempt email options) tried (world lookup) errs' evs' w' ->
     let next := tryServers (attempt email options) todo (last errs' None) w' in
     run = mkOutcome (settled next) (world next)
             (EvResolveMx (hostnameOf email) :: evs' ++ events next)).
  { intros tried todo errs' evs' w' Hsplit Htried next. unfold run.
    destruct (pre ++ [server]) as [| first others] eqn:Hservers;
      [now destruct pre |].
    rewrite (serverAcceptsEmail_resolved _ _ _ _ _ Hlookup), Hsplit.
    now rewrite (tryServers_after_failures _ _ _ _ _ _ Htried). }
  pose proof (AllFail_app _ _ _ _ _ _ _ _ Hpre He) as Hall.
  pose proof (Hloop _ [] _ _ _ (eq_sym (app_nil_r _)) Hall) as Hrun.
  simpl in Hrun. rewrite last_last in Hrun.
  split; [now rewrite Hrun | split; [now rewrite Hrun | split; [| exact Hloop]]].
  rewrite Hrun. simpl. rewrite app_nil_r.
  apply (AllFail_contacted _ _ _ _ _ _ _ Hall).
Qed.

Lemma testServer_carries client email opts (w : W) senderDomain :
  Forall (carries email senderDomain (senderAddress opts))
    (events (testServer client email opts w)).
Proof.
  destruct (testServer_events client email opts w) as [-> | (t & ->)];
    repeat constructor.
Qed.

Lemma attempt_carries email options server (w : W) :
  Forall (carries email (effectiveSenderDomain options)
            (effectiveSenderAddress options))
    (events (attempt email options server w)).
Proof.
  unfold attempt.
  destruct (manager_acquire server (effectiveSenderDomain options) w)
    as [[e | client] w'] eqn:H.
  - rewrite (withClient_refused _ _ _ _ _ _ H). repeat constructor.
  - rewrite (withClient_acquired _ _ _ _ _ _ H). simpl.
    constructor; [reflexivity |].
    apply Forall_app. split; [| repeat constructor].
    apply (testServer_carries client email
             {| senderAddress := effectiveSenderAddress options;
                handleGraylisting := true |}).
Qed.

Lemma tryServers_carries email options servers lastError (w : W) :
  Forall (carries email (effectiveSenderDomain options)
            (effectiveSenderAddress options))
    (events (tryServers (attempt email options) servers lastError w)).
Proof.
  revert lastError w.
  induction servers as [| server servers IH]; intros lastError w;
    [constructor |].
  destruct (settled (attempt email options server w)) as [e | b] eqn:H.
  - rewrite (tryServers_failure _ _ _ _ _ _ H). simpl.
    apply Forall_app. split; [apply attempt_carries | apply IH].
  - rewrite (tryServers_verdict _ _ _ _ _ _ H). apply attempt_carries.
Qed.

(** C8, as the code has it: every session is requested for, and every
    probe made with, the sender identity computed from the options.
    Without sender options the domain is the local host name and the
    address is "test@" followed by the domain; a supplied domain or
    address that is not the empty string is used as it is, and a supplied
    empty string counts as none (the host name, or "test@" and the domain,
    is used instead). *)
Theorem sender_identity email options (w : W) :
  Forall (carries email (effectiveSenderDomain options)
            (effectiveSenderAddress options))
    (events (serverAcceptsEmail (Client := Client) email options w)) /\
  (opt_senderDomain options = None -> opt_senderAddress options = None ->
   effectiveSenderDomain options = os_hostname /\
   effectiveSenderAddress options = ("test@" ++ os_hostname)%string) /\
  (forall d, opt_senderDomain options = Some d -> d <> ""%string ->
   effectiveSenderDomain options = d) /\
  (forall a, opt_senderAddress options = Some a -> a <> ""%string ->
   effectiveSenderAddress options = a) /\
  (opt_senderDomain options = None \/ opt_senderDomain options = Some ""%string ->
   effectiveSenderDomain options = os_hostname) /\
  (opt_senderAddress options = None \/ opt_senderAddress options = Some ""%string ->
   effectiveSenderAddress options =
   ("test@" ++ effectiveSenderDomain options)%string).
Proof.
  split.
  - rewrite serverAcceptsEmail_unfold. unfold bind.
    rewrite getMailServers_events.
    destruct (settled _) as [err | [| server servers]]; cbn [events app];
      repeat constructor.
    apply tryServers_carries.
  - unfold effectiveSenderAddress, effectiveSenderDomain.
    repeat apply conj.
    + now intros -> ->.
    + intros d -> Hd. destruct d; [congruence | reflexivity].
    + intros a -> Ha. destruct a; [congruence | reflexivity].
    + now intros [-> | ->].
    + now intros [-> | ->].
Qed.

End Orchestrator.

(** ** The properties on the concrete world *)

Section Runs.
Local Open Scope list_scope.
Import Scenario.

(** The spec's ordering example: priorities 20, 10, 30 (and a second 10)
    give the hosts in the order 10, 10, 20, 30. *)
Example priority_ordering :
  settled (getMailServers (Client := string) (Some "example.com") start) =
  inr ["mx1.example.com"; "mx4.example.com"; "mx2.example.com"; "mx3.example.com"].
Proof. reflexivity. Qed.

(** [mx1] refuses the connection, [mx4] accepts after one deferral: the
    verdict is [mx4]'s and neither [mx2] nor [mx3] is contacted. *)
Lemma first_verdict_wins_run :
  let run := serverAcceptsEmail "bob@example.com" noOptions start in
  settled run = inr true /\
  contacted (events run) = ["mx1.example.com"; "mx4.example.com"].
Proof.
  pose proof (first_verdict_wins "bob@example.com" noOptions start start
    ["mx1.example.com"; "mx4.example.com"; "mx2.example.com"; "mx3.example.com"]
    ["mx1.example.com"] "mx4.example.com" ["mx2.example.com"; "mx3.example.com"]
    [Some {| message := "connect ECONNREFUSED"; code := Some "ECONNREFUSED" |}]
    [EvAcquire "mx1.example.com" "probe.local"]) as H.
  cbv zeta in H.
  destruct H as (_ & Hverdict & _).
  - reflexivity.
  - reflexivity.
  - exact (AllFail_cons (attempt "bob@example.com" noOptions)
             "mx1.example.com" [] start
             (Some {| message := "connect ECONNREFUSED";
                      code := Some "ECONNREFUSED" |})
             [] [] start eq_refl (AllFail_nil _ start)).
  - destruct (Hverdict true) as (Hs & _ & _ & Hc).
    + vm_compute. reflexivity.
    + split; [exact Hs | exact Hc].
Defined.

(** [mx4] defers the first probe by 3 seconds and accepts the second. *)
Lemma greylisted_retry_once_run :
  let opts := {| senderAddress := "test@probe.local"; handleGraylisting := true |} in
  let o := testServer "mx4.example.com" "bob@example.com" opts start in
  settled o = inr true /\
  events o = [EvTest "mx4.example.com" "bob@example.com" "test@probe.local";
              EvSleep 3000;
              EvTest "mx4.example.com" "bob@example.com" "test@probe.local"].
Proof.
  intros opts o.
  destruct (greylisted_retry_once "mx4.example.com" "bob@example.com" opts
              start (mkWorld 0 ["mx4.example.com"] []) 3)
    as (Hs & _ & He & Hagain).
  - reflexivity.
  - reflexivity.
  - split.
    + unfold o. rewrite Hs. vm_compute. reflexivity.
    + unfold o. rewrite He, Hagain. reflexivity.
Defined.

(** [mx2] defers every probe: with handling off the first deferral is an
    error, and with handling on the attempt sleeps once and then fails. *)
Lemma one_deferral_per_host_run :
  let off := {| senderAddress := "test@probe.local"; handleGraylisting := false |} in
  settled (testServer "mx2.example.com" "bob@broken.example" off start) =
    inl (Some greylistingError) /\
  sleeps (events (testServer "mx2.example.com" "bob@broken.example" off start)) = 0 /\
  settled (attempt "bob@broken.example" noOptions "mx2.example.com" start) =
    inl (Some greylistingError) /\
  sleeps (events (attempt "bob@broken.example" noOptions "mx2.example.com" start)) = 1.
Proof.
  intro off.
  destruct (@one_deferral_per_host World string externals) as (Hoff & Hbound & Htwice).
  split; [| split; [| apply conj]].
  - rewrite (Hoff "mx2.example.com" "bob@broken.example" off start
               (mkWorld 0 ["mx2.example.com"] []) 5%Z); reflexivity.
  - destruct (Hbound "mx2.example.com" "bob@broken.example" off start)
      as (_ & _ & Hone).
    now destruct (Hone eq_refl).
  - destruct (Htwice "bob@broken.example" noOptions "mx2.example.com"
                "mx2.example.com" start (mkWorld 0 [] ["mx2.example.com"])
                (mkWorld 0 ["mx2.example.com"] ["mx2.example.com"])
                (mkWorld 5000 ["mx2.example.com"; "mx2.example.com"]
                   ["mx2.example.com"]) 5%Z 5%Z) as (Hs & _); reflexivity || exact Hs.
  - destruct (Htwice "bob@broken.example" noOptions "mx2.example.com"
                "mx2.example.com" start (mkWorld 0 [] ["mx2.example.com"])
                (mkWorld 0 ["mx2.example.com"] ["mx2.example.com"])
                (mkWorld 5000 ["mx2.example.com"; "mx2.example.com"]
                   ["mx2.example.com"]) 5%Z 5%Z) as (_ & Hn & _); reflexivity || exact Hn.
Defined.

(** [mx1] refuses the connection and [mx2] defers twice: the error
    surfaced is [mx2]'s, the later one. *)
Lemma all_fail_last_error_run :
  let run := serverAcceptsEmail "bob@broken.example" noOptions start in
  settled run = inl (Some greylistingError) /\
  contacted (events run) = ["mx1.example.com"; "mx2.example.com"].
Proof.
  pose proof (all_fail_last_error "bob@broken.example" noOptions start start
    ["mx1.example.com"] "mx2.example.com"
    [Some {| message := "connect ECONNREFUSED"; code := Some "ECONNREFUSED" |}]
    [EvAcquire "mx1.example.com" "probe.local"]
    (Some greylistingError)) as H.
  cbv zeta in H.
  destruct H as (Hs & _ & Hc & _).
  - reflexivity.
  - exact (AllFail_cons (attempt "bob@broken.example" noOptions)
             "mx1.example.com" [] start
             (Some {| message := "connect ECONNREFUSED";
                      code := Some "ECONNREFUSED" |})
             [] [] start eq_refl (AllFail_nil _ start)).
  - vm_compute. reflexivity.
  - split; [exact Hs | exact Hc].
Defined.

(** A domain the resolver answers ENODATA for: [false], and only the
    lookup is made. *)
Lemma no_exchangers_false_run :
  serverAcceptsEmail "bob@nodata.example" noOptions start =
    mkOutcome (inr false) start [EvResolveMx (Some "nodata.example")].
Proof.
  apply (no_exchangers_false "bob@nodata.example" noOptions start start
           (inl {| message := "queryMx ENODATA"; code := Some "ENODATA" |})).
  - reflexivity.
  - right. eexists. split; [reflexivity | right; reflexivity].
Defined.

(** A resolver timeout is not one of the two codes: it is thrown as it is. *)
Lemma resolver_errors_run :
  let e := {| message := "queryMx ETIMEOUT"; code := Some "ETIMEOUT" |} in
  serverAcceptsEmail "bob@timeout.example" noOptions start =
    mkOutcome (inl (Some e)) start [EvResolveMx (Some "timeout.example")].
Proof.
  intro e.
  destruct (resolver_errors (W := World) (Client := string) e) as (_ & _ & H).
  destruct (H (Some "timeout.example") start start eq_refl) as (_ & Hother).
  apply Hother.
  - intros [Hc | Hc]; discriminate Hc.
  - reflexivity.
Defined.

(** The records of example.com, in the stable order. *)
Lemma getMailServers_stable_order_run :
  exists sorted,
    stably_sorted
      [mkMx 20 "mx2.example.com"; mkMx 10 "mx1.example.com";
       mkMx 30 "mx3.example.com"; mkMx 10 "mx4.example.com"] sorted /\
    settled (getMailServers (Client := string) (Some "example.com") start) =
      inr (map exchange sorted).
Proof.
  destruct (getMailServers_stable_order (Client := string) (Some "example.com")
              start start
              [mkMx 20 "mx2.example.com"; mkMx 10 "mx1.example.com";
               mkMx 30 "mx3.example.com"; mkMx 10 "mx4.example.com"])
    as (sorted & Hsorted & _ & Hrun).
  - reflexivity.
  - exists sorted. split; [exact Hsorted | exact Hrun].
Defined.

(** No options: the local host name and "test@" with it. *)
Lemma sender_identity_run :
  effectiveSenderDomain (ext := externals) noOptions = "probe.local"%string /\
  effectiveSenderAddress (ext := externals) noOptions = "test@probe.local"%string /\
  effectiveSenderDomain (ext := externals) (mkOptions (Some "mail.example") None)
    = "mail.example"%string.
Proof.
  destruct (sender_identity (Client := string) "bob@plain.example" noOptions start)
    as (_ & Hnone & _).
  destruct (sender_identity (Client := string) "bob@plain.example"
              (mkOptions (Some "mail.example"%string) None) start)
    as (_ & _ & Hsome & _).
  destruct (Hnone eq_refl eq_refl) as [Hd Ha].
  split; [exact Hd | split; [exact Ha |]].
  apply Hsome; [reflexivity | discriminate].
Defined.

(** C8 as stated fails: the caller supplies the sender domain "" and the
    session is requested for "probe.local", the local host name, not for
    the value supplied. *)
Lemma supplied_empty_domain_not_used :
  let options := mkOptions (Some ""%string) None in
  opt_senderDomain options = Some ""%string /\
  ~ Forall (fun ev : Event string =>
              match ev with
              | EvAcquire _ d => d = ""%string
              | _ => True
              end)
      (events (serverAcceptsEmail "bob@plain.example" options start)).
Proof.
  split; [reflexivity |].
  vm_compute. intro H.
  inversion H as [| ? ? _ Htail]; subst.
  inversion Htail as [| ? ? Hhead _]; subst.
  discriminate Hhead.
Qed.

(** "a@nodata.example@c" is looked up as nodata.example; "bob" has no
    second segment and the resolver's error for [undefined] comes back. *)
Lemma domain_is_second_segment_run :
  hostnameOf "a@nodata.example@c" = Some "nodata.example"%string /\
  hostnameOf "bob" = None /\
  settled (serverAcceptsEmail "bob" noOptions start) =
    inl (Some {| message := "The name argument must be of type string";
                 code := Some "ERR_INVALID_ARG_TYPE" |}).
Proof.
  destruct (@domain_is_second_segment World string externals)
    as (Htwo & _ & Hnone & _ & Hthrow).
  split; [| split].
  - apply (Htwo "a" "nodata.example" "c")%string; reflexivity.
  - apply Hnone. reflexivity.
  - rewrite (Hthrow "bob"%string noOptions start start
               {| message := "The name argument must be of type string";
                  code := Some "ERR_INVALID_ARG_TYPE" |}).
    + reflexivity.
    + reflexivity.
    + reflexivity.
    + intros [Hc | Hc]; discriminate Hc.
Defined.

End Runs.

(** * Further properties of the code *)

(** ** What an attempt can end in *)

Section Outcomes.
Context {W Client : Type} {ext : Externals W Client}.
Local Open Scope list_scope.

Lemma probes_app (evs evs' : list (Event Client)) :
  probes (evs ++ evs') = probes evs + probes evs'.
Proof.
  induction evs as [| [] evs IH]; simpl; lia.
Qed.

Lemma sleeps_app (evs evs' : list (Event Client)) :
  sleeps (evs ++ evs') = sleeps evs + sleeps evs'.
Proof.
  induction evs as [| [] evs IH]; simpl; lia.
Qed.

Lemma lookups_app (evs evs' : list (Event Client)) :
  lookups (evs ++ evs') = lookups evs + lookups evs'.
Proof.
  induction evs as [| [] evs IH]; simpl; lia.
Qed.

(** X3: a verdict of [testServer] is the prober's own answer: the answer
    to the first probe, or, with greylist handling on and the first probe
    deferred, the answer to the probe made after the wait. *)
Theorem testServer_verdict_is_answer client email opts (w : W) (b : bool) :
  settled (testServer client email opts w) = inr b ->
  (exists w1,
     client_test client email (senderAddress opts) w = (inr (answer b), w1)) \/
  (handleGraylisting opts = true /\
   exists t w1 w2,
     client_test client email (senderAddress opts) w = (inr (greylist t), w1) /\
     client_test client email (senderAddress opts) (p_sleep (t * 1000) w1) =
       (inr (answer b), w2)).
Proof.
  intro Hrun.
  destruct (client_test client email (senderAddress opts) w)
    as [[e | [t | b1]] w1] eqn:H1.
  - rewrite (testServer_rejected _ _ _ _ _ _ H1) in Hrun. discriminate.
  - destruct (handleGraylisting opts) eqn:Hflag.
    + rewrite (testServer_greylist_enabled _ _ _ _ _ _ Hflag H1) in Hrun.
      cbn [settled] in Hrun.
      set (off := {| senderAddress := senderAddress opts;
                     handleGraylisting := false |}) in Hrun.
      destruct (client_test client email (senderAddress opts) (p_sleep (t * 1000) w1))
        as [[e | [t2 | b2]] w2] eqn:H2.
      * rewrite (testServer_rejected client email off _ _ _ H2) in Hrun.
        discriminate.
      * rewrite (testServer_greylist_disabled client email off _ _ _ eq_refl H2)
          in Hrun. discriminate.
      * rewrite (testServer_answer client email off _ _ _ H2) in Hrun.
        injection Hrun as ->. right. split; [reflexivity |]. now exists t, w1, w2.
    + rewrite (testServer_greylist_disabled _ _ _ _ _ _ Hflag H1) in Hrun.
      discriminate.
  - rewrite (testServer_answer _ _ _ _ _ _ H1) in Hrun.
    injection Hrun as ->. left. now exists w1.
Qed.

(** X4: [testServer] throws for one of four reasons only: the first probe
    was rejected (that error is thrown); the first probe was deferred with
    greylist handling off; or, with handling on, the first probe was
    deferred and the probe after the wait was rejected (that error is
    thrown) or deferred again.  The two deferral cases throw
    "Server applied greylisting". *)
Theorem testServer_failure_causes client email opts (w : W) (x : Thrown) :
  settled (testServer client email opts w) = inl x ->
  (exists e w1,
     client_test client email (senderAddress opts) w = (inl e, w1) /\
     x = Some e) \/
  (exists t w1,
     client_test client email (senderAddress opts) w = (inr (greylist t), w1) /\
     ((handleGraylisting opts = false /\ x = Some greylistingError) \/
      (handleGraylisting opts = true /\
       ((exists e w2,
           client_test client email (senderAddress opts) (p_sleep (t * 1000) w1)
             = (inl e, w2) /\ x = Some e) \/
        (exists t2 w2,
           client_test client email (senderAddress opts) (p_sleep (t * 1000) w1)
             = (inr (greylist t2), w2) /\ x = Some greylistingError))))).
Proof.
  intro Hrun.
  destruct (client_test client email (senderAddress opts) w)
    as [[e | [t | b1]] w1] eqn:H1.
  - rewrite (testServer_rejected _ _ _ _ _ _ H1) in Hrun.
    injection Hrun as <-. left. now exists e, w1.
  - right. exists t, w1. split; [reflexivity |].
    destruct (handleGraylisting opts) eqn:Hflag.
    + right. split; [reflexivity |].
      rewrite (testServer_greylist_enabled _ _ _ _ _ _ Hflag H1) in Hrun.
      cbn [settled] in Hrun.
      set (off := {| senderAddress := senderAddress opts;
                     handleGraylisting := false |}) in Hrun.
      destruct (client_test client email (senderAddress opts) (p_sleep (t * 1000) w1))
        as [[e | [t2 | b2]] w2] eqn:H2.
      * rewrite (testServer_rejected client email off _ _ _ H2) in Hrun.
        injection Hrun as <-. left. now exists e, w2.
      * rewrite (testServer_greylist_disabled client email off _ _ _ eq_refl H2)
          in Hrun.
        injection Hrun as <-. right. now exists t2, w2.
      * rewrite (testServer_answer client email off _ _ _ H2) in Hrun.
        discriminate.
    + left. split; [reflexivity |].
      rewrite (testServer_greylist_disabled _ _ _ _ _ _ Hflag H1) in Hrun.
      now injection Hrun as <-.
  - rewrite (testServer_answer _ _ _ _ _ _ H1) in Hrun. discriminate.
Qed.

(** What [testServer] throws is an [Error], never [null]. *)
Lemma testServer_throws_error client email opts (w : W) (x : Thrown) :
  settled (testServer client email opts w) = inl x -> exists e, x = Some e.
Proof.
  assert (Hoff : forall o w0, handleGraylisting o = false ->
            settled (testServer client email o w0) = inl x -> exists e, x = Some e).
  { intros o w0 Hflag Hrun.
    destruct (client_test client email (senderAddress o) w0)
      as [[e | [t | b1]] w1] eqn:H1.
    - rewrite (testServer_rejected _ _ _ _ _ _ H1) in Hrun.
      injection Hrun as <-. eauto.
    - rewrite (testServer_greylist_disabled _ _ _ _ _ _ Hflag H1) in Hrun.
      injection Hrun as <-. eauto.
    - rewrite (testServer_answer _ _ _ _ _ _ H1) in Hrun. discriminate. }
  intro Hrun.
  destruct (handleGraylisting opts) eqn:Hflag; [| now apply (Hoff opts w)].
  destruct (client_test client email (senderAddress opts) w)
    as [[e | [t | b1]] w1] eqn:H1.
  - rewrite (testServer_rejected _ _ _ _ _ _ H1) in Hrun.
    injection Hrun as <-. eauto.
  - rewrite (testServer_greylist_enabled _ _ _ _ _ _ Hflag H1) in Hrun.
    cbn [settled] in Hrun. eapply Hoff; [| exact Hrun]. reflexivity.
  - rewrite (testServer_answer _ _ _ _ _ _ H1) in Hrun. discriminate.
Qed.

Lemma attempt_throws_error email options server (w : W) (x : Thrown) :
  settled (attempt email options server w) = inl x -> exists e, x = Some e.
Proof.
  unfold attempt.
  destruct (manager_acquire server (effectiveSenderDomain options) w)
    as [[e | client] w'] eqn:H.
  - rewrite (withClient_refused _ _ _ _ _ _ H). intro Hrun.
    injection Hrun as <-. eauto.
  - rewrite (withClient_acquired _ _ _ _ _ _ H). cbn [settled].
    apply testServer_throws_error.
Qed.

(** The loop throws [lastError] as it was given only when there is no
    host; otherwise it throws what an attempt threw. *)
Lemma tryServers_throws_error email options servers lastError (w : W) (x : Thrown) :
  settled (tryServers (attempt email options) servers lastError w) = inl x ->
  (servers = [] /\ x = lastError) \/ exists e, x = Some e.
Proof.
  revert lastError w.
  induction servers as [| server servers IH]; intros lastError w Hrun.
  - left. split; [reflexivity |]. simpl in Hrun. now injection Hrun.
  - right.
    destruct (settled (attempt email options server w)) as [e0 | b] eqn:H.
    + rewrite (tryServers_failure _ _ _ _ _ _ H) in Hrun. cbn [settled] in Hrun.
      destruct (IH _ _ Hrun) as [[_ ->] | Hsome]; [| exact Hsome].
      now apply attempt_throws_error in H.
    + rewrite (tryServers_verdict _ _ _ _ _ _ H) in Hrun. congruence.
Qed.

Lemma getMailServers_throws_error hostname (w : W) (x : Thrown) :
  settled (getMailServers (Client := Client) hostname w) = inl x ->
  exists e, x = Some e.
Proof.
  unfold getMailServers, bind, call_catch, handleResolveMxErrors, pCatchIf.
  destruct (dns_resolveMx hostname w) as [[e | records] w']; cbn.
  - destruct (_ || _); cbn; [discriminate |].
    intro H. injection H as <-. eauto.
  - discriminate.
Qed.

Lemma serverAcceptsEmail_throws_error email options (w : W) (x : Thrown) :
  settled (serverAcceptsEmail (Client := Client) email options w) = inl x ->
  exists e, x = Some e.
Proof.
  intro Hrun. rewrite serverAcceptsEmail_unfold in Hrun. unfold bind in Hrun.
  destruct (settled (getMailServers (hostnameOf email) w))
    as [x0 | [| server servers]] eqn:Hlookup; cbn [settled] in Hrun.
  - apply getMailServers_throws_error in Hlookup.
    destruct Hlookup as [e He]. exists e. congruence.
  - discriminate.
  - apply tryServers_throws_error in Hrun.
    destruct Hrun as [[Hnil _] | Hsome]; [discriminate | exact Hsome].
Qed.

(** X1: [serverAcceptsEmail] never throws [null]: the final
    [throw lastError] is reached only after an attempt has set
    [lastError], and what the lookup and the attempts throw are errors. *)
Theorem serverAcceptsEmail_never_throws_null email options (w : W) :
  settled (serverAcceptsEmail (Client := Client) email options w) <> inl None.
Proof.
  intro Hrun. apply serverAcceptsEmail_throws_error in Hrun.
  destruct Hrun as [e He]. discriminate.
Qed.

End Outcomes.

(** ** The cost of a request *)

Section Cost.
Context {W Client : Type} {ext : Externals W Client}.
Local Open Scope list_scope.

Lemma testServer_counts client email opts (w : W) :
  let evs := events (testServer client email opts w) in
  lookups evs = 0 /\ sleeps evs <= 1 /\ probes evs = sleeps evs + 1.
Proof.
  destruct (testServer_events client email opts w) as [H | (t & H)];
    cbv zeta; rewrite H; simpl; lia.
Qed.

Lemma attempt_counts email options server (w : W) :
  let evs := events (attempt email options server w) in
  lookups evs = 0 /\ sleeps evs <= 1 /\ probes evs <= sleeps evs + 1 /\
  (forall b, settled (attempt email options server w) = inr b -> 1 <= probes evs).
Proof.
  unfold attempt.
  destruct (manager_acquire server (effectiveSenderDomain options) w)
    as [[e | client] w'] eqn:H.
  - rewrite (withClient_refused _ _ _ _ _ _ H). simpl.
    repeat apply conj; try lia. discriminate.
  - rewrite (withClient_acquired _ _ _ _ _ _ H). cbv zeta. cbn [events settled].
    destruct (testServer_counts client email
                {| senderAddress := effectiveSenderAddress options;
                   handleGraylisting := true |} w') as (Hl & Hs & Hp).
    cbn [lookups sleeps probes].
    rewrite lookups_app, sleeps_app, probes_app. simpl.
    repeat apply conj; intros; lia.
Qed.

Lemma tryServers_counts email options servers lastError (w : W) :
  let run := tryServers (attempt email options) servers lastError w in
  lookups (events run) = 0 /\
  sleeps (events run) <= List.length (contacted (events run)) /\
  probes (events run) <= sleeps (events run) + List.length (contacted (events run)) /\
  (forall b, settled run = inr b -> 1 <= probes (events run)).
Proof.
  revert lastError w.
  induction servers as [| server servers IH]; intros lastError w.
  - simpl. repeat apply conj; try lia. discriminate.
  - destruct (attempt_counts email options server w) as (Hl & Hs & Hp & Hv).
    assert (Hc : List.length (contacted (events (attempt email options server w))) = 1)
      by now rewrite attempt_contacted.
    destruct (settled (attempt email options server w)) as [e | b] eqn:H.
    + rewrite (tryServers_failure _ _ _ _ _ _ H). cbv zeta. cbn [events settled].
      destruct (IH e (world (attempt email options server w)))
        as (IHl & IHs & IHp & IHv).
      rewrite lookups_app, sleeps_app, probes_app, contacted_app, length_app.
      repeat apply conj; try lia.
      intros b Hb. specialize (IHv b Hb). lia.
    + rewrite (tryServers_verdict _ _ _ _ _ _ H). cbv zeta.
      repeat apply conj; try lia.
      intros b' Hb'. apply (Hv b). reflexivity.
Qed.


(** X5: a verdict reached without any probe is [false] and comes from an
    empty host list, the lookup being the only call made; in particular
    [true] is returned only after at least one probe. *)
Theorem verdict_needs_probe email options (w : W) (b : bool) :
  let run := serverAcceptsEmail (Client := Client) email options w in
  settled run = inr b ->
  (b = false /\ events run = [EvResolveMx (hostnameOf email)]) \/
  1 <= probes (events run).
Proof.
  cbv zeta. rewrite serverAcceptsEmail_unfold. unfold bind.
  pose proof (getMailServers_events (Client := Client) (hostnameOf email) w) as Hev.
  destruct (settled (getMailServers (hostnameOf email) w))
    as [x | [| server servers]] eqn:Hlookup; cbn [events settled]; rewrite Hev.
  - discriminate.
  - intro H. injection H as <-. now left.
  - intro H. right.
    destruct (tryServers_counts email options (server :: servers) None
                (world (getMailServers (hostnameOf email) w)))
      as (_ & _ & _ & Hv).
    specialize (Hv b H). cbn [app probes]. exact Hv.
Qed.

(** X7: records the resolver already returns in ascending priority order
    are kept in that order: the hosts are the records' names as given. *)
Theorem getMailServers_keeps_ascending hostname (w w' : W) records :
  dns_resolveMx hostname w = (inr records, w') ->
  StronglySorted by_priority records ->
  settled (getMailServers (Client := Client) hostname w) =
    inr (map exchange records).
Proof.
  intros Hdns Hsorted. rewrite (getMailServers_resolved _ _ _ _ Hdns).
  cbn [settled]. do 2 f_equal.
  apply (stably_sorted_unique records); [apply sort_stably_sorted |].
  split; [reflexivity | split; [exact Hsorted | reflexivity]].
Qed.

End Cost.

(** ** The domain of an address *)

Lemma first_occurrence (c : ascii) (s : string) :
  lacks c s = true \/
  exists a rest, lacks c a = true /\ s = (a ++ String c rest)%string.
Proof.
  induction s as [| x s IH]; [now left |].
  destruct (Ascii.eqb_spec x c) as [-> | Hne].
  - right. now exists EmptyString, s.
  - destruct IH as [Hs | (a & rest & Ha & ->)].
    + left. simpl. rewrite Hs.
      now destruct (Ascii.eqb_spec x c).
    + right. exists (String x a), rest. simpl. rewrite Ha.
      now destruct (Ascii.eqb_spec x c).
Qed.

(** The first segment of a split has no separator in it. *)
Lemma split_head (c : ascii) (s : string) :
  exists seg segs, split c s = seg :: segs /\ lacks c seg = true.
Proof.
  destruct (first_occurrence c s) as [Hs | (a & rest & Ha & ->)].
  - exists s, []. now rewrite (split_lacks _ _ Hs).
  - exists a, (split c rest). now rewrite (split_at_first _ _ _ Ha).
Qed.

(** X6: the resolver is handed [undefined] exactly for the addresses
    without an '@'.  Otherwise the domain handed over has no '@' in it and
    the address reads: a part without '@', an '@', the domain, and then
    either nothing or a second '@' followed by text that is ignored. *)
Theorem hostnameOf_spec (email : string) :
  (hostnameOf email = None <-> lacks "@" email = true) /\
  (forall domain,
     hostnameOf email = Some domain ->
     lacks "@" domain = true /\
     exists localPart rest,
       lacks "@" localPart = true /\
       email = (localPart ++ "@" ++ domain ++ rest)%string /\
       (rest = ""%string \/ exists ignored, rest = ("@" ++ ignored)%string)).
Proof.
  unfold hostnameOf.
  destruct (first_occurrence "@" email) as [Hno | (a & tail & Ha & ->)].
  - rewrite (split_lacks _ _ Hno). simpl. split; [tauto | discriminate].
  - rewrite (split_at_first _ _ _ Ha). simpl.
    assert (Hhas : lacks "@" (a ++ String "@" tail) = false).
    { clear -a. induction a as [| x a IH]; simpl; [reflexivity |].
      rewrite IH. apply andb_false_r. }
    split.
    + rewrite Hhas. destruct (split_head "@" tail) as (seg & segs & -> & _).
      split; discriminate.
    + intros domain Hd.
      destruct (first_occurrence "@" tail) as [Hno | (b & more & Hb & ->)].
      * rewrite (split_lacks _ _ Hno) in Hd. injection Hd as <-.
        split; [exact Hno |].
        exists a, ""%string. repeat split; trivial.
        -- assert (Hnil : forall t : string, (t ++ "")%string = t)
             by (induction t as [| x t IH]; simpl; congruence).
           simpl. now rewrite Hnil.
        -- now left.
      * rewrite (split_at_first _ _ _ Hb) in Hd. injection Hd as <-.
        split; [exact Hb |].
        exists a, (String "@" more). repeat split; trivial.
        right. now exists more.
Qed.

(** ** The HTTP endpoint *)

Section EndpointProperties.
Context {W Client : Type} {ext : Externals W Client}.
Local Open Scope list_scope.

(** The handler on an address that is not empty, in terms of the run of
    [serverAcceptsEmail] on it with the default options. *)
Lemma verifyHandler_run (c : ascii) (s : string) (w : W) :
  let email := String c s in
  let run := serverAcceptsEmail (Client := Client) email noOptions w in
  verifyHandler (Some email) w =
  mkOutcome
    match settled run with
    | inr isValid =>
        inr {| status := 200;
               json := [("email"%string, JString email);
                        ("isValid"%string, JBool isValid)] |}
    | inl (Some e) =>
        inr {| status := 500;
               json := [("error"%string, JString "Error verifying email");
                        ("details"%string, JString (message e))] |}
    | inl None =>
        inl (Some (newError "Cannot read properties of null (reading 'message')"))
    end
    (world run) (events run).
Proof.
  cbv zeta. unfold verifyHandler, try_catch, bind, message_of.
  destruct (serverAcceptsEmail (String c s) noOptions w) as [[[e |] | b] w' evs];
    cbn; now rewrite ?app_nil_r.
Qed.

(** X8: the handler always answers and never throws.  Without an address,
    or with an empty one, it answers 400 "Email is required" without any
    call to the resolver or to a mail host.  Otherwise it makes exactly the
    calls of [serverAcceptsEmail] on the address with the default options
    and answers 200 with the address and the verdict when that resolves,
    500 with the message of the error when that throws. *)
Theorem verifyHandler_always_responds (query : option string) (w : W) :
  exists response,
    settled (verifyHandler (Client := Client) query w) = inr response /\
    match query with
    | Some (String _ _ as email) =>
        let run := serverAcceptsEmail (Client := Client) email noOptions w in
        events (verifyHandler (Client := Client) query w) = events run /\
        world (verifyHandler (Client := Client) query w) = world run /\
        match settled run with
        | inr isValid =>
            response =
            {| status := 200;
               json := [("email"%string, JString email);
                        ("isValid"%string, JBool isValid)] |}
        | inl (Some e) =>
            response =
            {| status := 500;
               json := [("error"%string, JString "Error verifying email");
                        ("details"%string, JString (message e))] |}
        | inl None => False
        end
    | _ =>
        response =
        {| status := 400;
           json := [("error"%string, JString "Email is required")] |} /\
        events (verifyHandler (Client := Client) query w) = [] /\
        world (verifyHandler (Client := Client) query w) = w
    end.
Proof.
  destruct query as [[| c s] |].
  - eexists. split; [reflexivity |]. repeat split.
  - rewrite verifyHandler_run. cbv zeta. cbn [settled events world].
    pose proof (serverAcceptsEmail_throws_error (String c s) noOptions w) as Hnull.
    destruct (settled (serverAcceptsEmail (String c s) noOptions w))
      as [[e |] | b]; try (eexists; repeat split; reflexivity).
    destruct (Hnull None eq_refl) as [e He]. discriminate.
  - eexists. split; [reflexivity |]. repeat split.
Qed.

Lemma serverAcceptsEmail_carries email options (w : W) :
  Forall (carries email (effectiveSenderDomain options)
            (effectiveSenderAddress options))
    (events (serverAcceptsEmail (Client := Client) email options w)).
Proof.
  rewrite serverAcceptsEmail_unfold. unfold bind.
  rewrite getMailServers_events.
  destruct (settled _) as [err | [| server servers]]; cbn [events app];
    repeat constructor.
  apply tryServers_carries.
Qed.

(** X9: the handler passes no sender options, so every session it causes
    is requested for the local host name and every probe is made for the
    address of the query, with "test@" and the local host name as sender. *)
Theorem verifyHandler_sender (query : option string) (w : W) :
  Forall (fun ev : Event Client =>
            match ev with
            | EvAcquire _ senderDomain => senderDomain = os_hostname
            | EvTest _ email sender =>
                query = Some email /\ sender = ("test@" ++ os_hostname)%string
            | _ => True
            end)
    (events (verifyHandler (Client := Client) query w)).
Proof.
  destruct query as [[| c s] |]; try constructor.
  rewrite verifyHandler_run. cbv zeta. cbn [events].
  eapply Forall_impl; [| apply serverAcceptsEmail_carries].
  intros [] H; simpl in *; trivial.
  destruct H as [-> ->]. split; reflexivity.
Qed.

(** X10: for an address that is not empty, a domain without exchangers
    (an empty answer, ENOTFOUND or ENODATA) is answered 200 with
    [isValid: false], and any other resolver error is answered 500 with
    that error's message as details; in both cases no mail host is
    contacted. *)
Theorem verifyHandler_lookup_outcomes (c : ascii) (s : string) (w w' : W)
    (answer : JsError + list MxRecord) :
  let email := String c s in
  let sent := verifyHandler (Client := Client) (Some email) w in
  dns_resolveMx (hostnameOf email) w = (answer, w') ->
  (answer = inr [] \/ (exists e, answer = inl e /\ no_mail_code e) ->
   settled sent =
     inr {| status := 200;
            json := [("email"%string, JString email);
                     ("isValid"%string, JBool false)] |} /\
   contacted (events sent) = []) /\
  (forall e, answer = inl e -> ~ no_mail_code e ->
   settled sent =
     inr {| status := 500;
            json := [("error"%string, JString "Error verifying email");
                     ("details"%string, JString (message e))] |} /\
   contacted (events sent) = []).
Proof.
  intros email sent Hdns. subst sent email.
  rewrite verifyHandler_run. cbv zeta. cbn [settled events].
  rewrite serverAcceptsEmail_unfold. unfold bind.
  split.
  - intro Hanswer.
    assert (Hget : getMailServers (Client := Client) (hostnameOf (String c s)) w =
                   mkOutcome (inr []) w' [EvResolveMx (hostnameOf (String c s))]).
    { destruct Hanswer as [-> | (e & -> & Hc)].
      - now rewrite (getMailServers_resolved _ _ _ _ Hdns).
      - now apply getMailServers_no_mail with e. }
    rewrite Hget. split; reflexivity.
  - intros e -> Hc.
    rewrite (getMailServers_failure _ _ _ _ Hdns Hc).
    split; reflexivity.
Qed.

End EndpointProperties.

(** ** These properties on the concrete world *)

Section MoreRuns.
Local Open Scope list_scope.
Import Scenario.

(** [mx4] accepts on the probe after the wait. *)
Lemma testServer_verdict_is_answer_run :
  let opts := {| senderAddress := "test@probe.local"; handleGraylisting := true |} in
  (exists w1,
     test "mx4.example.com" "bob@example.com" "test@probe.local" start =
       (inr (answer true), w1)) \/
  (handleGraylisting opts = true /\
   exists t w1 w2,
     test "mx4.example.com" "bob@example.com" "test@probe.local" start =
       (inr (greylist t), w1) /\
     test "mx4.example.com" "bob@example.com" "test@probe.local"
       (sleep (t * 1000) w1) = (inr (answer true), w2)).
Proof.
  intro opts.
  assert (Hrun : settled (testServer "mx4.example.com" "bob@example.com" opts start)
                 = inr true) by (vm_compute; reflexivity).
  exact (testServer_verdict_is_answer "mx4.example.com" "bob@example.com" opts
           start true Hrun).
Defined.

(** [mx2] defers both probes. *)
Lemma testServer_failure_causes_run :
  let opts := {| senderAddress := "test@probe.local"; handleGraylisting := true |} in
  settled (testServer "mx2.example.com" "bob@broken.example" opts start) =
    inl (Some greylistingError) /\
  exists t w1 t2 w2,
    test "mx2.example.com" "bob@broken.example" "test@probe.local" start =
      (inr (greylist t), w1) /\
    test "mx2.example.com" "bob@broken.example" "test@probe.local"
      (sleep (t * 1000) w1) = (inr (greylist t2), w2).
Proof.
  intro opts.
  assert (Hrun : settled (testServer "mx2.example.com" "bob@broken.example" opts start)
                 = inl (Some greylistingError)) by (vm_compute; reflexivity).
  split; [exact Hrun |].
  destruct (testServer_failure_causes "mx2.example.com" "bob@broken.example" opts
              start (Some greylistingError) Hrun)
    as [(e & w1 & H & _) | (t & w1 & H1 & [[Hoff _] | [_ [(e & w2 & H2 & _) | (t2 & w2 & H2 & _)]]])].
  - discriminate H.
  - discriminate Hoff.
  - simpl in H1. injection H1 as <- <-. discriminate H2.
  - now exists t, w1, t2, w2.
Defined.

(** Both hosts of broken.example fail; what is thrown is an error. *)
Lemma serverAcceptsEmail_never_throws_null_run :
  settled (serverAcceptsEmail "bob@broken.example" noOptions start) <> inl None.
Proof.
  apply (serverAcceptsEmail_never_throws_null "bob@broken.example" noOptions start).
Defined.


(** The [true] for bob@example.com came after a probe. *)
Lemma verdict_needs_probe_run :
  1 <= probes (events (serverAcceptsEmail "bob@example.com" noOptions start)).
Proof.
  destruct (verdict_needs_probe (Client := string) "bob@example.com" noOptions
              start true) as [[Hfalse _] | Hprobe].
  - vm_compute. reflexivity.
  - discriminate Hfalse.
  - exact Hprobe.
Defined.

(** plain.example has two records of priority 5, kept in their order. *)
Lemma getMailServers_keeps_ascending_run :
  settled (getMailServers (Client := string) (Some "plain.example") start) =
  inr ["mx3.example.com"; "mx4.example.com"].
Proof.
  apply (getMailServers_keeps_ascending (Client := string) (Some "plain.example")
           start start [mkMx 5 "mx3.example.com"; mkMx 5 "mx4.example.com"]).
  - reflexivity.
  - repeat constructor; unfold by_priority; simpl; lia.
Defined.

(** In "a@nodata.example@c" the domain is nodata.example and "@c" is
    ignored. *)
Lemma hostnameOf_spec_run :
  lacks "@" "nodata.example" = true /\
  exists localPart rest,
    lacks "@" localPart = true /\
    "a@nodata.example@c"%string = (localPart ++ "@" ++ "nodata.example" ++ rest)%string /\
    (rest = ""%string \/ exists ignored, rest = ("@" ++ ignored)%string).
Proof.
  apply (hostnameOf_spec "a@nodata.example@c"). reflexivity.
Defined.

(** A domain without records is answered 200 with [isValid: false]. *)
Lemma verifyHandler_lookup_outcomes_run :
  settled (verifyHandler (Some "bob@nodata.example") start) =
  inr {| status := 200;
         json := [("email"%string, JString "bob@nodata.example");
                  ("isValid"%string, JBool false)] |}.
Proof.
  destruct (verifyHandler_lookup_outcomes (Client := string) "b" "ob@nodata.example"
              start start
              (inl {| message := "queryMx ENODATA"; code := Some "ENODATA" |}))
    as [Hnone _].
  - reflexivity.
  - apply Hnone. right. eexists. split; [reflexivity | right; reflexivity].
Defined.

End MoreRuns.

(** ** Deferrals per host in one request *)

Section PerHost.
Context {W Client : Type} {ext : Externals W Client}.
Local Open Scope list_scope.

(** The events of an attempt on [server], followed by events that start
    a new session if they have any wait: the waits made with [host] are at
    most one more than those that follow when [server] is [host], and no
    more than those otherwise. *)
Lemma attempt_deferrals email options server (w : W) host current rest :
  (forall c c', deferrals_from host c rest = deferrals_from host c' rest) ->
  deferrals_from host current (events (attempt email options server w) ++ rest)
  <= (if string_dec server host then 1 else 0) + deferrals_from host None rest.
Proof.
  intro Hrest. unfold attempt.
  destruct (manager_acquire server (effectiveSenderDomain options) w)
    as [[e | client] w'] eqn:H.
  - rewrite (withClient_refused _ _ _ _ _ _ H). simpl.
    rewrite (Hrest (Some server) None). lia.
  - rewrite (withClient_acquired _ _ _ _ _ _ H). cbn [events].
    destruct (testServer_events client email
                {| senderAddress := effectiveSenderAddress options;
                   handleGraylisting := true |} w') as [-> | (t & ->)]; simpl.
    + rewrite (Hrest (Some server) None). lia.
    + rewrite (Hrest (Some server) None).
      destruct (String.eqb_spec server host), (string_dec server host);
        try contradiction; lia.
Qed.

Lemma attempt_deferrals_start email options server (w : W) host rest c c' :
  deferrals_from host c (events (attempt email options server w) ++ rest) =
  deferrals_from host c' (events (attempt email options server w) ++ rest).
Proof.
  unfold attempt.
  destruct (manager_acquire server (effectiveSenderDomain options) w)
    as [[e | client] w'] eqn:H.
  - now rewrite (withClient_refused _ _ _ _ _ _ H).
  - now rewrite (withClient_acquired _ _ _ _ _ _ H).
Qed.

Lemma tryServers_deferrals email options servers lastError (w : W) host :
  let evs := events (tryServers (attempt email options) servers lastError w) in
  (forall c c', deferrals_from host c evs = deferrals_from host c' evs) /\
  deferrals_from host None evs <= count_occ string_dec servers host.
Proof.
  revert lastError w.
  induction servers as [| server servers IH]; intros lastError w; cbv zeta.
  - split; [reflexivity | simpl; lia].
  - assert (Hcount : count_occ string_dec (server :: servers) host =
                     (if string_dec server host then 1 else 0)
                     + count_occ string_dec servers host).
    { simpl. now destruct (string_dec server host). }
    destruct (settled (attempt email options server w)) as [e | b] eqn:H.
    + rewrite (tryServers_failure _ _ _ _ _ _ H). cbv zeta. cbn [events].
      destruct (IH e (world (attempt email options server w))) as [Hstart Hle].
      split; [intros; apply attempt_deferrals_start |].
      rewrite Hcount.
      pose proof (attempt_deferrals email options server w host None _ Hstart).
      lia.
    + rewrite (tryServers_verdict _ _ _ _ _ _ H).
      rewrite <- (app_nil_r (events (attempt email options server w))).
      split; [intros; apply attempt_deferrals_start |].
      rewrite Hcount.
      pose proof (attempt_deferrals email options server w host None []
                    (fun _ _ => eq_refl)) as Hle.
      simpl in Hle |- *. lia.
Qed.

(** X11: in one request the waits made in sessions with a host are at
    most as many as the entries of the resolved host list that name it; a
    host the list names once is waited for at most once, and so is every
    host when the list has no repetition. *)
Theorem deferrals_per_host email options (w : W) servers host :
  let run := serverAcceptsEmail (Client := Client) email options w in
  settled (getMailServers (Client := Client) (hostnameOf email) w) = inr servers ->
  deferrals_from host None (events run) <= count_occ string_dec servers host /\
  (NoDup servers -> deferrals_from host None (events run) <= 1).
Proof.
  intros run Hlookup.
  assert (Hle : deferrals_from host None (events run)
                <= count_occ string_dec servers host).
  { unfold run. rewrite serverAcceptsEmail_unfold. unfold bind.
    rewrite Hlookup, getMailServers_events.
    destruct servers as [| server servers']; [simpl; lia |].
    cbn [events app deferrals_from].
    apply tryServers_deferrals. }
  split; [exact Hle |].
  intro Hnodup.
  pose proof (proj1 (NoDup_count_occ string_dec servers) Hnodup host). lia.
Qed.

End PerHost.

Section RepeatedRuns.
Local Open Scope list_scope.
Import Scenario.

(** C3 as stated fails: the lookup names [mx2] twice, each entry is a new
    attempt with greylist handling on, and the one request honours two
    deferrals from [mx2], waiting twice and probing it four times. *)
Lemma repeated_host_deferred_twice :
  let run :=
    serverAcceptsEmail (ext := Repeated.externals) "bob@twice.example"
      noOptions start in
  settled (getMailServers (ext := Repeated.externals)
             (hostnameOf "bob@twice.example") start) =
    inr ["mx2.example.com"; "mx2.example.com"] /\
  events run =
    [EvResolveMx (Some "twice.example");
     EvAcquire "mx2.example.com" "probe.local";
     EvTest "mx2.example.com" "bob@twice.example" "test@probe.local";
     EvSleep 5000;
     EvTest "mx2.example.com" "bob@twice.example" "test@probe.local";
     EvRelease "mx2.example.com";
     EvAcquire "mx2.example.com" "probe.local";
     EvTest "mx2.example.com" "bob@twice.example" "test@probe.local";
     EvSleep 5000;
     EvTest "mx2.example.com" "bob@twice.example" "test@probe.local";
     EvRelease "mx2.example.com"] /\
  contacted (events run) = ["mx2.example.com"; "mx2.example.com"] /\
  probes (events run) = 4 /\
  ~ sleeps (events run) <= 1.
Proof.
  cbv zeta. repeat apply conj; try (vm_compute; reflexivity).
  vm_compute. lia.
Qed.

(** [mx4] is named once for example.com and is waited for once at most. *)
Lemma deferrals_per_host_run :
  deferrals_from "mx4.example.com" None
    (events (serverAcceptsEmail "bob@example.com" noOptions start)) <= 1.
Proof.
  destruct (deferrals_per_host (Client := string) "bob@example.com" noOptions
              start
              ["mx1.example.com"; "mx4.example.com"; "mx2.example.com";
               "mx3.example.com"] "mx4.example.com") as [_ Hone].
  - reflexivity.
  - apply Hone. repeat constructor; simpl; intuition discriminate.
Defined.

End RepeatedRuns.
